(** * BashBeatz-CLI: library tree builder and playback controller

    A shallow embedding of [bin/index.js].  These parts of the program are
    modelled:

    - [fetchMusic]: the loop that folds the flat list returned by
      [GET /songs] into the [musicdata] object handed to the tree widget;
    - the playback globals ([currentAudio], [isPlaying],
      [progressBarInterval], [songDuration], [elapsedTime]) together with
      the handlers that mutate them: [playSong], its [error] and [exit]
      listeners, the [setInterval] callback of [startProgressBar],
      [togglePlayPause] and the listeners of the key [p];
    - the [select] listener of the tree widget;
    - the address that [playSong] gives to the player.

    Modelling conventions.

    - The tree is a graph of plain JavaScript objects.  An object is its
      prototype and its own properties; a property is read along the
      prototype chain, which ends in [Object.prototype] with its twelve
      properties ([constructor], [toString], [__proto__], ...), and an
      assignment to [__proto__] replaces the prototype.  No object of the
      program is referenced from two places, so the graph is a tree and an
      assignment through a path rebuilds the objects along that path.
    - Fields of the JSON entries are strings when present ([option string]);
      [None] stands for an absent ([undefined] or [null]) field.
    - [songDuration] and the percentage given to the gauge are binary64
      numbers (primitive floats); comparisons of numbers compare the
      rationals they stand for.  [elapsedTime] only ever holds whole
      numbers and is an integer: counting by 1 is exact in binary64 up to
      2^53, which a session reaches after 285 million years.
    - [path.basename] is the POSIX one: the program controls the player
      with [SIGSTOP] and [SIGCONT].
    - Calls that only draw ([screen.render]) or write to the console or to
      [debug.log] are left out, and so is what the widgets do with the
      values they are given. *)

From Stdlib Require Import Ascii String QArith Qminmax Qround Floats.
From stdpp Require Import gmap strings list fin_maps.

Open Scope string_scope.

(** ** Strings and truthiness *)

Module Js.

(** [!!s] for a string-valued field that may be absent: the empty string
    and a missing field are both falsy. *)
Definition truthy (v : option string) : bool :=
  match v with
  | Some s => negb (String.eqb s "")
  | None => false
  end.

(** [v || d] where [d] is a string. *)
Definition or_else (v : option string) (d : string) : string :=
  match v with
  | Some s => if String.eqb s "" then d else s
  | None => d
  end.

End Js.

(** ** [path.basename] (POSIX flavour, one argument)

    Node scans the path from its end: trailing separators are skipped, then
    characters are kept up to the next separator. *)

Module Path.

Definition is_sep (c : ascii) : bool := Ascii.eqb c "/"%char.

Fixpoint skip_seps (cs : list ascii) : list ascii :=
  match cs with
  | c :: cs' => if is_sep c then skip_seps cs' else cs
  | [] => []
  end.

Fixpoint upto_sep (cs : list ascii) : list ascii :=
  match cs with
  | c :: cs' => if is_sep c then [] else c :: upto_sep cs'
  | [] => []
  end.

Definition basename (p : string) : string :=
  string_of_list_ascii
    (rev (upto_sep (skip_seps (rev (list_ascii_of_string p))))).

End Path.

(** ** Binary64 numbers

    JavaScript numbers are the primitive floats.  [value] is the number a
    float stands for; the relational operators of the language compare
    these numbers, and every comparison with [NaN] is false. *)

Module Binary64.

Inductive number :=
  | NaN
  | Infinity (negative : bool)
  | Finite (q : Q).

Definition value (x : float) : number :=
  match Prim2SF x with
  | S754_zero _ => Finite 0
  | S754_infinity s => Infinity s
  | S754_nan => NaN
  | S754_finite s m e =>
      Finite (inject_Z (if s then Z.neg m else Z.pos m) * Qpower 2 e)
  end.

(** A whole number as a float, rounded to nearest-even when it has more
    than 53 bits. *)
Definition of_Z (z : Z) : float :=
  SF2Prim (binary_normalize prec emax z 0 false).

(** [isNaN(x)] *)
Definition isNaN (x : float) : bool :=
  match value x with
  | NaN => true
  | _ => false
  end.

(** [x > 0] *)
Definition positive (x : float) : bool :=
  match value x with
  | Finite q => negb (Qle_bool q 0)
  | Infinity negative => negb negative
  | NaN => false
  end.

(** [n >= x] for a whole number [n] *)
Definition reached (n : Z) (x : float) : bool :=
  match value x with
  | Finite q => Qle_bool q (inject_Z n)
  | Infinity negative => negative
  | NaN => false
  end.

(** Line 91: [(elapsedTime / songDuration) * 100], each operation rounded
    to nearest-even. *)
Definition percent (elapsedTime : Z) (songDuration : float) : float :=
  (of_Z elapsedTime / songDuration * 100)%float.

(** The percentage in the words of the specification,
    [min(100, elapsedTime / songDuration * 100)], to compare with what
    the program passes to the gauge. *)
Definition spec_percent (elapsedTime : Z) (songDuration : float) : float :=
  if (100 <? percent elapsedTime songDuration)%float then 100%float
  else percent elapsedTime songDuration.

End Binary64.

(** ** The entries of the catalogue *)

(** An entry of the array served by [/songs]. *)
Record Metadata := mkMetadata {
  artist : option string;
  album : option string;
  title : option string;
  year : option string
}.

Record item := Item {
  file : option string;
  metadata : option Metadata;
  type : option string;
  name : option string
}.

(** ** Objects

    The values of the properties that the program stores are strings
    ([name], [file]), booleans ([extended]) and objects.  An object has a
    prototype, where [None] stands for [Object.prototype], and own
    properties.  The own property [children] has a field of its own: every
    object literal of the program that has it sets it to an object, and
    every assignment of the program assigns an object, so that
    [x.children[k]] always reads a property of an object or of
    [undefined]. *)
Inductive value (O : Type) :=
  | Str (s : string)
  | Bool (b : bool)
  | Obj (o : O).

Arguments Str {O} s.
Arguments Bool {O} b.
Arguments Obj {O} o.

#[warnings="-register-all"]
Inductive object := mkObject {
  proto : option object;
  children : option object;
  fields : gmap string (value object)
}.

(** The own property [k] of [o]. *)
Definition own (o : object) (k : string) : option (value object) :=
  if String.eqb k "children" then Obj <$> children o else fields o !! k.

(** The own property [k] of [o] is created or overwritten. *)
Definition set_own (o : object) (k : string) (v : object) : object :=
  if String.eqb k "children" then mkObject (proto o) (Some v) (fields o)
  else mkObject (proto o) (children o) (<[k := Obj v]> (fields o)).

Definition set_proto (o : object) (p : object) : object :=
  mkObject (Some p) (children o) (fields o).

(** The properties of [Object.prototype].  All of them are functions but
    [__proto__], an accessor whose getter returns the prototype of the
    object it is read from and whose setter replaces it. *)
Definition object_prototype_names : list string :=
  ["constructor"; "__defineGetter__"; "__defineSetter__"; "hasOwnProperty";
   "__lookupGetter__"; "__lookupSetter__"; "isPrototypeOf";
   "propertyIsEnumerable"; "toString"; "valueOf"; "__proto__";
   "toLocaleString"].

Definition inherited (k : string) : bool :=
  existsb (String.eqb k) object_prototype_names.

(** The first data property [k] on the chain that starts at [o] and stops
    before [Object.prototype]. *)
Fixpoint lookup_chain (o : object) (k : string) : option (value object) :=
  match own o k with
  | Some v => Some v
  | None =>
      match proto o with
      | Some p => lookup_chain p k
      | None => None
      end
  end.

(** What [o[k]] evaluates to.  [Builtin] is a function of
    [Object.prototype] or [Object.prototype] itself: a truthy value that
    has no property [children]. *)
Inductive got :=
  | Undefined
  | Value (v : value object)
  | Builtin.

Definition get (o : object) (k : string) : got :=
  match lookup_chain o k with
  | Some v => Value v
  | None =>
      if String.eqb k "__proto__" then
        match proto o with
        | Some p => Value (Obj p)
        | None => Builtin
        end
      else if inherited k then Builtin
      else Undefined
  end.

Definition is_truthy (g : got) : bool :=
  match g with
  | Undefined => false
  | Value (Str s) => negb (String.eqb s "")
  | Value (Bool b) => b
  | Value (Obj _) => true
  | Builtin => true
  end.

(** [o[k] = v] for an object [v].  An own property is overwritten; the
    setter of [__proto__] is called when no object of the chain has a data
    property of that name; in every other case, also when a prototype has
    the property, the property is created on [o] itself. *)
Definition put (o : object) (k : string) (v : object) : object :=
  if String.eqb k "__proto__" then
    match lookup_chain o k with
    | Some _ => set_own o k v
    | None => set_proto o v
    end
  else set_own o k v.

(** [if (!o[k]) o[k] = v] *)
Definition guarded_put (k : string) (v : object) (o : object) : object :=
  if is_truthy (get o k) then o else put o k v.

(** The object that [o[k]] evaluates to is replaced, where it is, by what
    [g] makes of it.  The outer [None] says that no object of the chain has
    a data property [k].  The inner [None] is a [TypeError]: it comes from
    [g], or [o[k]] is a string or a boolean; the program reads [children]
    of the value and then a property of the result, and [children] of a
    string or of a boolean is [undefined]. *)
Fixpoint update_chain (o : object) (k : string) (g : object → option object)
    : option (option object) :=
  match own o k with
  | Some (Obj x) => Some (x' ← g x; Some (set_own o k x'))
  | Some _ => Some None
  | None =>
      match proto o with
      | Some p => (λ r, p' ← r; Some (set_proto o p')) <$> update_chain p k g
      | None => None
      end
  end.

(** The same for [o[k]] in full: [o.__proto__] is the prototype of [o].
    Where [o[k]] is [undefined], a function of [Object.prototype] or
    [Object.prototype] itself, the program fails with a [TypeError] as
    above: these have no property [children]. *)
Definition update (o : object) (k : string) (g : object → option object)
    : option object :=
  match update_chain o k g with
  | Some r => r
  | None =>
      if String.eqb k "__proto__" then
        match proto o with
        | Some p => p' ← g p; Some (set_proto o p')
        | None => None
        end
      else None
  end.

(** ** [fetchMusic] *)

(** The object literals of lines 197-201, 205-209, 213-216 and 220-223. *)
Definition empty_object : object := mkObject None None ∅.

Definition new_artist (a : string) : object :=
  mkObject None (Some empty_object) {["name" := Str a; "extended" := Bool false]}.

Definition new_album (al : string) : object :=
  mkObject None (Some empty_object) {["name" := Str al; "extended" := Bool false]}.

Definition new_track (t f : string) : object :=
  mkObject None None {["name" := Str t; "file" := Str f]}.

Definition new_directory (d : string) : object :=
  mkObject None (Some empty_object) {["name" := Str d]}.

(** The three defaulted names of a track entry (lines 191-193). *)
Definition resolved_artist (md : Metadata) : string :=
  Js.or_else (artist md) "Unknown Artist".
Definition resolved_album (md : Metadata) : string :=
  Js.or_else (album md) "Unknown Album".
Definition resolved_title (f : string) (md : Metadata) : string :=
  Js.or_else (title md) (Path.basename f).



(** The guard [item.file && item.metadata], returning the two values it
    found when it holds. *)
Definition track_of (i : item) : option (string * Metadata) :=
  match file i, metadata i with
  | Some f, Some md => if Js.truthy (Some f) then Some (f, md) else None
  | _, _ => None
  end.

(** [item.type === 'directory'] *)
Definition is_directory (i : item) : bool :=
  bool_decide (type i = Some "directory").

(** The [if] branch of the callback, on the object [musicdata.children]:
    three guarded assignments, each of which evaluates its path from
    [musicdata.children] again (lines 196, 204 and 212). *)
Definition add_track (f : string) (md : Metadata) (T : object) : option object :=
  let a := resolved_artist md in
  let al := resolved_album md in
  let t := resolved_title f md in
  let T1 := guarded_put a (new_artist a) T in
  T2 ← update T1 a (λ x, update x "children" (λ c,
          Some (guarded_put al (new_album al) c)));
  update T2 a (λ x, update x "children" (λ c,
    update c al (λ y, update y "children" (λ k,
      Some (guarded_put t (new_track t f) k))))).

(** The [else if] branch: an unconditional assignment at the base name. *)
Definition add_directory (n : string) (T : object) : object :=
  let dirName := Path.basename n in
  put T dirName (new_directory dirName).

(** One call of the [forEach] callback.  [None] is a thrown [TypeError]:
    a property of [undefined] is read, or [path.basename] is given an
    argument that is not a string. *)
Definition visit (T : object) (i : item) : option object :=
  match track_of i with
  | Some (f, md) => add_track f md T
  | None =>
      if is_directory i then
        match name i with
        | Some n => Some (add_directory n T)
        | None => None
        end
      else Some T
  end.

(** [data.forEach(...)]: the first exception leaves the loop. *)
Fixpoint forEach (data : list item) (T : object) : option object :=
  match data with
  | [] => Some T
  | i :: data' =>
      match visit T i with
      | Some T' => forEach data' T'
      | None => None
      end
  end.

(** [{ extended: true, children: T }] *)
Definition musicdata (T : object) : object :=
  mkObject None (Some T) {["extended" := Bool true]}.

(** The object built between lines 185 and 225 from [response.data];
    [Some] is the value passed to [tree.setData], [None] means the [catch]
    clause ran instead and the widget keeps what it showed. *)
Definition fetchMusic (data : list item) : option object :=
  musicdata <$> forEach data empty_object.

(** Reading the tree along a path of own properties. *)
Definition node_at (o : object) (k : string) : option object :=
  match own o k with
  | Some (Obj x) => Some x
  | _ => None
  end.

Definition lookup_artist (M : object) (a : string) : option object :=
  T ← children M; node_at T a.

Definition lookup_album (M : object) (a al : string) : option object :=
  n ← lookup_artist M a; c ← children n; node_at c al.

Definition lookup_track (M : object) (a al t : string) : option object :=
  n ← lookup_album M a al; c ← children n; node_at c t.

(** The own properties [name] and [file] of a node, when they are
    strings. *)
Definition name_of (o : object) : option string :=
  match own o "name" with
  | Some (Str s) => Some s
  | _ => None
  end.

Definition file_of (o : object) : option string :=
  match own o "file" with
  | Some (Str s) => Some s
  | _ => None
  end.

(** The [name] fields met along a path that ends in a track. *)
Definition path_labels (M : object) (a al t : string)
    : option (string * string * string) :=
  n1 ← lookup_artist M a;
  n2 ← lookup_album M a al;
  n3 ← lookup_track M a al t;
  l1 ← name_of n1; l2 ← name_of n2; l3 ← name_of n3;
  Some (l1, l2, l3).

(** The number of own properties: [Object.keys(o).length]. *)
Definition keys_length (o : object) : nat :=
  (size (delete "children" (fields o)) +
   match children o with Some _ => 1 | None => 0 end)%nat.

(** ** What an entry does, as decidable predicates on the entry *)

(** The resolved artist/album/title of an entry that takes the [if] branch. *)
Definition track_key (i : item) : option (string * string * string) :=
  match track_of i with
  | Some (f, md) => Some (resolved_artist md, resolved_album md, resolved_title f md)
  | None => None
  end.

(** The entry takes the [if] branch and resolves to the names [k]. *)
Definition writes (k : string * string * string) (i : item) : bool :=
  bool_decide (track_key i = Some k).

(** The entry takes the [if] branch and resolves to the artist [a]. *)
Definition track_under (a : string) (i : item) : bool :=
  match track_of i with
  | Some (_, md) => bool_decide (resolved_artist md = a)
  | None => false
  end.

(** The entry takes the [else if] branch. *)
Definition directory_entry (i : item) : bool :=
  match track_of i with
  | Some _ => false
  | None => is_directory i
  end.

(** The entry takes the [else if] branch and its base name is [d]. *)
Definition directory_named (d : string) (i : item) : bool :=
  directory_entry i &&
  match name i with
  | Some n => bool_decide (Path.basename n = d)
  | None => false
  end.

(** The entry is a directory without a [name]: [path.basename] throws. *)
Definition nameless (i : item) : bool :=
  directory_entry i &&
  match name i with
  | Some _ => false
  | None => true
  end.

(** [musicdata.children[k]] is found on the prototype chain after the
    entries [l], when it is no own property: [k] is a property of
    [Object.prototype], or it is [name] or [children] and a directory entry
    called [__proto__] has put a directory node in front of
    [Object.prototype]. *)
Definition shadowed (l : list item) (k : string) : bool :=
  inherited k ||
  (existsb (directory_named "__proto__") l &&
   (String.eqb k "name" || String.eqb k "children")).

(** The entry uses a name with which the loop cannot be followed entry by
    entry from the entry alone: its artist or its album is a property of
    [Object.prototype], it is a directory called [__proto__], or it is a
    directory without a name. *)
Definition hazard (i : item) : bool :=
  nameless i || directory_named "__proto__" i ||
  match track_of i with
  | Some (_, md) => inherited (resolved_artist md) || inherited (resolved_album md)
  | None => false
  end.

(** The entry takes one of the two branches of the callback. *)
Definition handled (i : item) : bool :=
  match track_of i with
  | Some _ => true
  | None => is_directory i
  end.

(** The key of [musicdata.children] that the entry assigns or reads. *)
Definition top_key (i : item) : option string :=
  match track_of i with
  | Some (_, md) => Some (resolved_artist md)
  | None => if is_directory i then Path.basename <$> name i else None
  end.

(** The entry makes the callback throw when it comes after the entries
    [l1], none of which is a directory called [__proto__]: it is a
    directory without a name, its album is a property of
    [Object.prototype], or its artist is one and no directory entry of
    that name has created the key. *)
Definition throws_after (l1 : list item) (i : item) : bool :=
  nameless i ||
  match track_of i with
  | Some (_, md) =>
      inherited (resolved_album md) ||
      (inherited (resolved_artist md) &&
       negb (existsb (directory_named (resolved_artist md)) l1))
  | None => false
  end.

(** Entries as the server sends them, for the examples below. *)
Module Examples.

Definition song (f : string) (a al t : string) : item :=
  Item (Some f) (Some (mkMetadata (Some a) (Some al) (Some t) None)) None None.

Definition dir (n : string) : item :=
  Item None None (Some "directory") (Some n).

End Examples.

(** ** The own part of the tree

    What the loop makes of the own properties of [musicdata.children] can
    be told without objects: the key of a node is its [name], a node made
    by the [else if] branch differs from one made by the [if] branch in
    having no [extended], and a track is its [file].  [embed_tree] maps
    this description back to the object. *)
Record artist_shape := mkArtistShape {
  from_directory : bool;
  albums : gmap string (gmap string string)
}.

Abbreviation tree_shape := (gmap string artist_shape).

(** An object used as a dictionary: the values [e k v] at the keys [k]. *)
Definition container {V} (e : string → V → object) (p : option object)
    (m : gmap string V) : object :=
  mkObject p (e "children" <$> m !! "children")
    (map_imap (λ k v, Some (Obj (e k v))) (delete "children" m)).

Definition embed_album (al : string) (A : gmap string string) : object :=
  mkObject None (Some (container new_track None A))
    {["name" := Str al; "extended" := Bool false]}.

Definition embed_artist (a : string) (n : artist_shape) : object :=
  mkObject None (Some (container embed_album None (albums n)))
    (if from_directory n then {["name" := Str a]}
     else {["name" := Str a; "extended" := Bool false]}).

(** The directory node that a directory entry called [__proto__] makes the
    prototype of [musicdata.children]; [C] is its [children]. *)
Definition prototype_node (C : object) : object :=
  mkObject None (Some C) {["name" := Str "__proto__"]}.

Definition embed_tree (pc : option object) (m : tree_shape) : object :=
  container embed_artist (prototype_node <$> pc) m.

(** The prototype of [musicdata.children] has been replaced. *)
Definition replaced (pc : option object) : bool :=
  match pc with
  | Some _ => true
  | None => false
  end.

(** [musicdata.children[a]] is an own property after line 196: it was one
    before, or the guarded assignment has made one. *)
Definition own_resolves (m : tree_shape) (b : bool) (a : string) : bool :=
  bool_decide (is_Some (m !! a)) ||
  (negb (inherited a) && negb (b && (String.eqb a "name" || String.eqb a "children"))).

Definition fresh_artist : artist_shape := mkArtistShape false ∅.

(** The three guarded assignments on the own part. *)
Definition track_step (f : string) (md : Metadata) (m : tree_shape) : tree_shape :=
  let a := resolved_artist md in
  let al := resolved_album md in
  let t := resolved_title f md in
  let n := default fresh_artist (m !! a) in
  let A := default ∅ (albums n !! al) in
  let A' := if bool_decide (is_Some (A !! t)) || inherited t then A else <[t := f]> A in
  <[a := mkArtistShape (from_directory n) (<[al := A']> (albums n))]> m.

Definition directory_step (d : string) (m : tree_shape) : tree_shape :=
  <[d := mkArtistShape true ∅]> m.

(** The entry reaches line 212 on the own part: its artist is an own
    property after line 196, and its album is a key of that artist or
    becomes one at line 204, which it does not when [Object.prototype]
    defines it. *)
Definition reaches_own (m : tree_shape) (b : bool) (md : Metadata) : bool :=
  own_resolves m b (resolved_artist md) &&
  (bool_decide (is_Some (albums (default fresh_artist (m !! resolved_artist md))
                           !! resolved_album md))
   || negb (inherited (resolved_album md))).

(** The own part and whether the prototype has been replaced, after one
    entry that did not throw. *)
Definition shape_visit (s : tree_shape * bool) (i : item) : tree_shape * bool :=
  match track_of i with
  | Some (f, md) =>
      if reaches_own s.1 s.2 md then (track_step f md s.1, s.2)
      else s
  | None =>
      if is_directory i then
        match name i with
        | Some n =>
            if String.eqb (Path.basename n) "__proto__" then (s.1, true)
            else (directory_step (Path.basename n) s.1, s.2)
        | None => s
        end
      else s
  end.

Definition shape_run (l : list item) (s : tree_shape * bool) : tree_shape * bool :=
  foldl shape_visit s l.

Definition shape_of (data : list item) : tree_shape :=
  (shape_run data (∅, false)).1.

Definition shape_track (m : tree_shape) (a al t : string) : option string :=
  n ← m !! a; A ← albums n !! al; A !! t.

(** The entry throws on the own part [m] while the prototype is
    [Object.prototype]. *)
Definition shape_throws (m : tree_shape) (i : item) : bool :=
  match track_of i with
  | Some (f, md) => negb (reaches_own m false md)
  | None => nameless i
  end.

(** What the own part [m] owes to the entries [l]: a node without albums
    is a directory node, an album without tracks comes from an entry whose
    title [Object.prototype] defines, and no track has an empty file. *)
Definition populated (l : list item) (m : tree_shape) : Prop :=
  ∀ a n, m !! a = Some n →
    (albums n = ∅ → n = mkArtistShape true ∅) ∧
    ∀ al A, albums n !! al = Some A →
      (A = ∅ → ∃ i f md, i ∈ l ∧ track_of i = Some (f, md) ∧
                         resolved_artist md = a ∧ resolved_album md = al ∧
                         inherited (resolved_title f md) = true) ∧
      ∀ t f, A !! t = Some f → f ≠ "".

(** Below the top level no key is a property of [Object.prototype]. *)
Definition plain_keys (m : tree_shape) : Prop :=
  ∀ a n, m !! a = Some n →
    ∀ al A, albums n !! al = Some A →
      inherited al = false ∧ ∀ t f, A !! t = Some f → inherited t = false.

(** A top-level key that [Object.prototype] defines is in the own part
    [m] exactly when a directory entry of [l] has that base name. *)
Definition directory_keys (l : list item) (m : tree_shape) : Prop :=
  ∀ k, inherited k = true →
    (is_Some (m !! k) ↔ existsb (directory_named k) l = true).

(** The loop on the own part while the prototype is [Object.prototype]. *)
Fixpoint shape_forEach (l : list item) (m : tree_shape) : option tree_shape :=
  match l with
  | [] => Some m
  | i :: l' =>
      if shape_throws m i then None
      else shape_forEach l' (shape_visit (m, false) i).1
  end.

(** ** The playback controller *)

(** Signals passed to [ChildProcess.kill]; with no argument it sends
    [SIGTERM]. *)
Inductive signal := SIGTERM | SIGSTOP | SIGCONT.

(** The five [let] variables of lines 13-17.  A child process and an
    interval timer are named by the number of those created before it. *)
Record globals := mkGlobals {
  currentAudio : option nat;
  isPlaying : bool;
  progressBarInterval : option nat;
  songDuration : float;
  elapsedTime : Z
}.

(** What the program has done to the world around it.
    - [spawned]: the [songPath] captured by the listeners of each child,
      oldest first (the handle of a child is its position);
    - [signals]: the calls of [kill], newest first;
    - [intervals]: the timers that are alive;
    - [next_interval]: the number of [setInterval] calls so far;
    - [recordbox]: the arguments of [updateRecordBox], newest first;
    - [progressBar]: the arguments of [progressBar.setPercent], newest
      first. *)
Record host := mkHost {
  spawned : list string;
  signals : list (nat * signal);
  intervals : list nat;
  next_interval : nat;
  recordbox : list string;
  progressBar : list float
}.

Record world := mkWorld {
  vars : globals;
  env : host
}.

(** The state in which the script starts. *)
Definition boot : world :=
  mkWorld (mkGlobals None false None 0%float 0) (mkHost [] [] [] 0 [] []).

(** Assignments to the globals. *)
Definition set_currentAudio (p : option nat) (w : world) : world :=
  let g := vars w in
  mkWorld (mkGlobals p (isPlaying g) (progressBarInterval g) (songDuration g)
             (elapsedTime g)) (env w).

Definition set_isPlaying (b : bool) (w : world) : world :=
  let g := vars w in
  mkWorld (mkGlobals (currentAudio g) b (progressBarInterval g) (songDuration g)
             (elapsedTime g)) (env w).

Definition set_progressBarInterval (t : option nat) (w : world) : world :=
  let g := vars w in
  mkWorld (mkGlobals (currentAudio g) (isPlaying g) t (songDuration g)
             (elapsedTime g)) (env w).

Definition set_songDuration (d : float) (w : world) : world :=
  let g := vars w in
  mkWorld (mkGlobals (currentAudio g) (isPlaying g) (progressBarInterval g) d
             (elapsedTime g)) (env w).

Definition set_elapsedTime (e : Z) (w : world) : world :=
  let g := vars w in
  mkWorld (mkGlobals (currentAudio g) (isPlaying g) (progressBarInterval g)
             (songDuration g) e) (env w).

(** Calls into the host. *)
Definition kill (p : nat) (s : signal) (w : world) : world :=
  let h := env w in
  mkWorld (vars w)
    (mkHost (spawned h) ((p, s) :: signals h) (intervals h) (next_interval h)
       (recordbox h) (progressBar h)).

Definition updateRecordBox (content : string) (w : world) : world :=
  let h := env w in
  mkWorld (vars w)
    (mkHost (spawned h) (signals h) (intervals h) (next_interval h)
       (content :: recordbox h) (progressBar h)).

Definition setPercent (percent : float) (w : world) : world :=
  let h := env w in
  mkWorld (vars w)
    (mkHost (spawned h) (signals h) (intervals h) (next_interval h)
       (recordbox h) (percent :: progressBar h)).

(** [spawn('ffplay', ...)] when it returns: a new child whose listeners
    will capture [songPath]; the handle is the result. *)
Definition spawn (songPath : string) (w : world) : nat * world :=
  let h := env w in
  (length (spawned h),
   mkWorld (vars w)
     (mkHost (spawned h ++ [songPath]) (signals h) (intervals h)
        (next_interval h) (recordbox h) (progressBar h))).

(** [setInterval(callback, 1000)]: a new live timer; the handle is the
    result. *)
Definition setInterval (w : world) : nat * world :=
  let h := env w in
  (next_interval h,
   mkWorld (vars w)
     (mkHost (spawned h) (signals h) (next_interval h :: intervals h)
        (S (next_interval h)) (recordbox h) (progressBar h))).

(** [clearInterval(handle)]: [null] and handles of dead timers are
    ignored. *)
Definition clearInterval (handle : option nat) (w : world) : world :=
  match handle with
  | Some t =>
      let h := env w in
      mkWorld (vars w)
        (mkHost (spawned h) (signals h)
           (filter (λ t', t' ≠ t) (intervals h)) (next_interval h)
           (recordbox h) (progressBar h))
  | None => w
  end.

(** How the call of [spawn] ends: it returns a child (which may still fail
    to start and then emits [error]), or it throws. *)
Inductive spawn_result := Spawned | SpawnThrows.

(** How the probe ends: [spawnSync] or the reading of its output throws,
    or [parseFloat] returns a number, which may be [NaN]. *)
Inductive probe := ProbeThrows | ProbeParsed (duration : float).

(** [getSongDuration] (lines 68-83). *)
Definition getSongDuration (pr : probe) : float :=
  match pr with
  | ProbeParsed duration => if Binary64.isNaN duration then 0%float else duration
  | ProbeThrows => 0%float
  end.

(** The callback given to [setInterval] (lines 88-100). *)
Definition on_interval (w : world) : world :=
  if isPlaying (vars w) && Binary64.positive (songDuration (vars w)) then
    let w1 := set_elapsedTime (elapsedTime (vars w) + 1) w in
    let percent := Binary64.percent (elapsedTime (vars w1)) (songDuration (vars w1)) in
    let w2 := setPercent percent w1 in
    if Binary64.reached (elapsedTime (vars w2)) (songDuration (vars w2))
    then clearInterval (progressBarInterval (vars w2)) w2
    else w2
  else w.

(** [startProgressBar] (lines 85-101). *)
Definition startProgressBar (w : world) : world :=
  let w1 := setPercent 0%float w in
  let '(t, w2) := setInterval w1 in
  set_progressBarInterval (Some t) w2.

(** [playSong] (lines 27-66).  [getSongDuration] runs to its end inside the
    call, and the code after [await] is the next thing to run on the event
    loop apart from a pending [error] emission, which touches none of the
    variables: the whole function is one step. *)
Definition playSong (songPath : string) (r : spawn_result) (pr : probe)
    (w : world) : world :=
  let w0 :=
    match currentAudio (vars w) with
    | Some p => kill p SIGTERM w
    | None => w
    end in
  match r with
  | Spawned =>
      let '(child, w1) := spawn songPath w0 in
      let w2 := set_currentAudio (Some child) w1 in
      let w3 := set_isPlaying true w2 in
      let w4 := set_elapsedTime 0 w3 in
      let w5 := updateRecordBox ("Now playing: " ++ Path.basename songPath) w4 in
      let w6 := set_songDuration (getSongDuration pr) w5 in
      startProgressBar w6
  | SpawnThrows =>
      updateRecordBox ("Error fetching: " ++ Path.basename songPath) w0
  end.

(** The [error] listener of a child (lines 44-47). *)
Definition on_error (child : nat) (w : world) : world :=
  match spawned (env w) !! child with
  | Some songPath =>
      updateRecordBox ("Error playing: " ++ Path.basename songPath) w
  | None => w
  end.

(** The [exit] listener of a child (lines 49-56); [code] is [None] when the
    child was ended by a signal. *)
Definition on_exit (child : nat) (code : option Z) (w : world) : world :=
  match spawned (env w) !! child with
  | Some songPath =>
      let w1 :=
        if bool_decide (code = Some 0%Z) then w
        else updateRecordBox ("Playback ended: " ++ Path.basename songPath) w in
      let w2 := set_isPlaying false w1 in
      clearInterval (progressBarInterval (vars w2)) w2
  | None => w
  end.

(** [togglePlayPause] (lines 114-130). *)
Definition togglePlayPause (w : world) : world :=
  match currentAudio (vars w) with
  | Some p =>
      let w1 :=
        if isPlaying (vars w)
        then set_isPlaying false (kill p SIGSTOP w)
        else set_isPlaying true (kill p SIGCONT w) in
      updateRecordBox (if isPlaying (vars w1) then "Playing..." else "Paused") w1
  | None => updateRecordBox "No audio playing" w
  end.

(** A timer fires only while it is alive. *)
Definition tick (t : nat) (w : world) : world :=
  if bool_decide (t ∈ intervals (env w)) then on_interval w else w.

(** What the event loop can run. *)
Inductive event :=
  | Play (songPath : string) (r : spawn_result) (pr : probe)
  | Error (child : nat)
  | Exit (child : nat) (code : option Z)
  | Tick (t : nat)
  | Toggle.

Definition step (w : world) (e : event) : world :=
  match e with
  | Play songPath r pr => playSong songPath r pr w
  | Error child => on_error child w
  | Exit child code => on_exit child code w
  | Tick t => tick t w
  | Toggle => togglePlayPause w
  end.

Definition run (w : world) (es : list event) : world := foldl step w es.

(** The event starts a song. *)
Definition is_play (e : event) : bool :=
  match e with
  | Play _ _ _ => true
  | _ => false
  end.

(** Traces used as concrete inputs below. *)
Module Traces.

(** The number that [parseFloat] returns for "9.4". *)
Definition nine_point_four : float := 0x1.2cccccccccccdp+3%float.

(** A song of 200 seconds, played for 50 seconds. *)
Definition fifty_of_200 : list event :=
  Play "/music/a.mp3" Spawned (ProbeParsed 200%float) :: repeat (Tick 0) 50.

(** A song of 9.4 seconds, played to its end. *)
Definition ten_of_9_4 : list event :=
  Play "/music/a.mp3" Spawned (ProbeParsed nine_point_four) :: repeat (Tick 0) 10.

(** The player cannot be started: [spawn] returns a child that emits
    [error]. *)
Definition failed_start : list event :=
  [Play "/music/a.mp3" Spawned (ProbeParsed 200%float); Error 0].

(** The player cannot be started: [spawn] throws. *)
Definition spawn_throws : list event :=
  [Play "/music/a.mp3" SpawnThrows (ProbeParsed 200%float)].

(** A song that plays to its end: the player exits with code 0. *)
Definition clean_exit : list event :=
  [Play "/music/a.mp3" Spawned (ProbeParsed 200%float); Exit 0 (Some 0%Z)].

(** A second song is chosen while the first one is playing. *)
Definition two_plays : list event :=
  [Play "/music/a.mp3" Spawned (ProbeParsed 200%float);
   Play "/music/b.mp3" Spawned (ProbeParsed 100%float)].

End Traces.

(** ** Further views of [path.basename] *)

(** The string holds a path separator. *)
Definition has_sep (s : string) : bool :=
  existsb Path.is_sep (list_ascii_of_string s).

(** ** The key binding for play and pause *)

(** The listener given to [screen.key(['p'], ...)]. *)
Definition key_p_listener (w : world) : world :=
  let w1 := togglePlayPause w in
  updateRecordBox (if isPlaying (vars w1) then "Playing..." else "Paused") w1.

(** The program registers that listener twice, at lines 133-136 and again
    at lines 385-388, and an emitter calls every listener of an event in
    the order of registration: one press of [p] runs it twice. *)
Definition on_key_p (w : world) : world :=
  key_p_listener (key_p_listener w).

(** ** What holds in every state the program can reach *)

Definition world_ok (w : world) : Prop :=
  (∀ p, currentAudio (vars w) = Some p → S p = length (spawned (env w))) ∧
  (∀ t, progressBarInterval (vars w) = Some t → S t = next_interval (env w)) ∧
  (∀ t, t ∈ intervals (env w) → t < next_interval (env w)) ∧
  NoDup (intervals (env w)) ∧
  (0 ≤ elapsedTime (vars w))%Z ∧
  (isPlaying (vars w) = true → is_Some (currentAudio (vars w))).

(** The signals sent to the child that [playSong] replaces. *)
Definition signals_after_kill (w : world) : list (nat * signal) :=
  match currentAudio (vars w) with
  | Some p => (p, SIGTERM) :: signals (env w)
  | None => signals (env w)
  end.

(** ** One song from start to end *)

(** What holds from the start of a song of duration [q] whose timer is
    [t0] until the next song: no timer but [t0] is alive, it is alive only
    while the elapsed time is below the duration, and the gauge shows the
    percentage of line 91 for the elapsed time. *)
Definition in_session (d : float) (q : Q) (t0 : nat) (w : world) : Prop :=
  songDuration (vars w) = d ∧
  Binary64.value d = Binary64.Finite q ∧
  progressBarInterval (vars w) = Some t0 ∧
  ((intervals (env w) = [t0] ∧ (inject_Z (elapsedTime (vars w)) < q)%Q) ∨
   intervals (env w) = []) ∧
  (inject_Z (elapsedTime (vars w)) < q + 1)%Q ∧
  (0 ≤ elapsedTime (vars w))%Z ∧
  hd_error (progressBar (env w)) =
    Some (if (elapsedTime (vars w) =? 0)%Z then 0%float
          else Binary64.percent (elapsedTime (vars w)) d).

(** ** The tree widget's [select] listener *)

(** The playback state together with the rows last given to
    [table.setData]. *)
Record ui := mkUi {
  player : world;
  table : list (list string)
}.

(** What the listener reads of the node it is given: [node.name],
    [node.file] when there is one, and the number of keys of
    [node.children] when there is one. *)
Record node := mkNode {
  node_name : string;
  node_file : option string;
  node_children : option nat
}.

(** The reads of a node object of the tree: [name] is a string, [file] is
    a string or missing, [children] is an object or missing, and there is
    no [track]. *)
Definition view (o : object) : option node :=
  match get o "name", get o "track" with
  | Value (Str nm), Undefined =>
      f ← match get o "file" with
          | Undefined => Some None
          | Value (Str f) => Some (Some f)
          | _ => None
          end;
      c ← match get o "children" with
          | Undefined => Some None
          | Value (Obj c) => Some (Some (keys_length c))
          | _ => None
          end;
      Some (mkNode nm f c)
  | _, _ => None
  end.

Definition no_songs_row : list string := ["No Songs Selected"; ""; ""].
Definition error_row : list string := ["Error"; ""; ""].

(** [[node.name, node.track || 'N/A', '00:00']] *)
Definition song_row (nd : node) : list string :=
  [node_name nd; "N/A"; "00:00"].

(** The [catch] clause after the call of [isAlbumNode], a name that the
    program never defines: the call throws a [ReferenceError] whose message
    is "isAlbumNode is not defined". *)
Definition isAlbumNode_throws (u : ui) : ui :=
  mkUi (updateRecordBox "Error: isAlbumNode is not defined" (player u)) [error_row].

(** The second branch, for a node whose [children] has keys. *)
Definition show_group (name : string) (u : ui) : ui :=
  mkUi (updateRecordBox ("Artist: " ++ name) (player u)) [no_songs_row].

(** The listener of lines 347-382.  The part of [playSong] that runs after
    its [await] comes after the listener has returned; it writes the
    duration, the gauge and the timer, which the rest of the listener does
    not touch, so that running it first gives the same state. *)
Definition tree_select (nd : node) (r : spawn_result) (pr : probe) (u : ui) : ui :=
  match node_children nd with
  | None =>
      match node_file nd with
      | Some f =>
          if Js.truthy (Some f) then
            mkUi (updateRecordBox ("Now playing: " ++ node_name nd)
                    (playSong f r pr (player u)))
              [song_row nd]
          else isAlbumNode_throws u
      | None => isAlbumNode_throws u
      end
  | Some n =>
      if (0 <? n)%nat then show_group (node_name nd) u
      else isAlbumNode_throws u
  end.

(** ** The address of a song *)

(** [encodeURIComponent], on strings read as sequences of UTF-8 bytes:
    letters, digits and [- _ . ! ~ * ' ( )] stay, every other byte becomes
    [%] and two upper-case hexadecimal digits.  A JavaScript string with a
    lone surrogate, on which the function throws [URIError], has no UTF-8
    form and is not a value of the model. *)
Module Uri.

Definition unreserved (c : ascii) : bool :=
  let n := nat_of_ascii c in
  ((65 <=? n)%nat && (n <=? 90)%nat) || ((97 <=? n)%nat && (n <=? 122)%nat) ||
  ((48 <=? n)%nat && (n <=? 57)%nat) ||
  existsb (Ascii.eqb c) (list_ascii_of_string "-_.!~*'()").

Definition hex_digit (n : nat) : ascii :=
  nth n (list_ascii_of_string "0123456789ABCDEF") "0"%char.

Definition escape (c : ascii) : list ascii :=
  ["%"%char; hex_digit (nat_of_ascii c / 16); hex_digit (nat_of_ascii c mod 16)].

Definition encode_byte (c : ascii) : list ascii :=
  if unreserved c then [c] else escape c.

Definition encodeURIComponent (s : string) : string :=
  string_of_list_ascii (flat_map encode_byte (list_ascii_of_string s)).

(** The value of a hexadecimal digit, and the reading back of escapes;
    they serve to show that the encoding loses nothing. *)
Definition hex_value (c : ascii) : nat :=
  let n := nat_of_ascii c in
  if (n <=? 57)%nat then n - 48 else n - 55.

Fixpoint unescape (cs : list ascii) : list ascii :=
  match cs with
  | [] => []
  | c :: rest =>
      if Ascii.eqb c "%"%char then
        match rest with
        | h :: l :: rest' =>
            ascii_of_nat (16 * hex_value h + hex_value l) :: unescape rest'
        | _ => c :: unescape rest
        end
      else c :: unescape rest
  end.

End Uri.

(** Line 109. *)
Definition SERVER_URL : string := "http://localhost:3000".

(** The address given to the player and to the prober (line 32). *)
Definition song_url (songPath : string) : string :=
  SERVER_URL ++ "/songs/" ++ Uri.encodeURIComponent (Path.basename songPath).

(** * Facts about the model *)

Section JsFacts.


Lemma inherited_proto : inherited "__proto__" = true.
Proof. reflexivity. Qed.

Lemma eqb_proto_plain (k : string) :
  inherited k = false → String.eqb k "__proto__" = false.
Proof.
  intros Hk. destruct (String.eqb_spec k "__proto__") as [->|]; [|done].
  by rewrite inherited_proto in Hk.
Qed.

End JsFacts.

Section PathExamples.

Example basename_plain : Path.basename "a.mp3" = "a.mp3".
Proof. reflexivity. Qed.

Example basename_nested :
  Path.basename "/music/live/set one.flac" = "set one.flac".
Proof. reflexivity. Qed.

Example basename_trailing : Path.basename "albums/Live//" = "Live".
Proof. reflexivity. Qed.

Example basename_root : Path.basename "/" = "".
Proof. reflexivity. Qed.

End PathExamples.

(** ** Reading and writing properties *)

Section Objects.

Lemma own_set_own (o : object) (k j : string) (v : object) :
  own (set_own o k v) j = if decide (k = j) then Some (Obj v) else own o j.
Proof.
  unfold own, set_own.
  destruct (String.eqb_spec k "children") as [->|Hk];
    destruct (String.eqb_spec j "children") as [->|Hj];
    cbn [fields children proto].
  - by rewrite decide_True.
  - by rewrite decide_False.
  - by rewrite decide_False.
  - rewrite lookup_insert. by destruct (decide (k = j)).
Qed.

Lemma own_set_proto (o p : object) (k : string) :
  own (set_proto o p) k = own o k.
Proof. done. Qed.

Lemma lookup_chain_unfold (o : object) (k : string) :
  lookup_chain o k =
  match own o k with
  | Some v => Some v
  | None => match proto o with Some p => lookup_chain p k | None => None end
  end.
Proof. by destruct o. Qed.

Lemma update_chain_unfold (o : object) (k : string) (g : object → option object) :
  update_chain o k g =
  match own o k with
  | Some (Obj x) => Some (x' ← g x; Some (set_own o k x'))
  | Some _ => Some None
  | None =>
      match proto o with
      | Some p => (λ r, p' ← r; Some (set_proto o p')) <$> update_chain p k g
      | None => None
      end
  end.
Proof. by destruct o. Qed.

(** An own property that is an object is updated in place. *)
Lemma update_own (o x : object) (k : string) (g : object → option object) :
  own o k = Some (Obj x) →
  update o k g = x' ← g x; Some (set_own o k x').
Proof. intros Hx. unfold update. by rewrite update_chain_unfold, Hx. Qed.

(** Without the property on the chain of a plain object, [o[k]] has no
    [children]. *)
Lemma update_missing (o : object) (k : string) (g : object → option object) :
  own o k = None → proto o = None → update o k g = None.
Proof.
  intros Hx Hp. unfold update. rewrite update_chain_unfold, Hx, Hp.
  by destruct (String.eqb k "__proto__").
Qed.

(** [x.children] of a node that has the property. *)
Lemma update_children (x c : object) (g : object → option object) :
  children x = Some c →
  update x "children" g =
  c' ← g c; Some (mkObject (proto x) (Some c') (fields x)).
Proof.
  intros Hc. rewrite (update_own x c); [done|].
  unfold own. simpl. by rewrite Hc.
Qed.

End Objects.

(** ** Objects used as dictionaries *)

Section Containers.

Context {V : Type} (e : string → V → object).

Lemma container_empty (p : option object) :
  container e p ∅ = mkObject p None ∅.
Proof.
  unfold container. by rewrite lookup_empty, delete_empty, map_imap_empty.
Qed.

Lemma proto_container (p : option object) (m : gmap string V) :
  proto (container e p m) = p.
Proof. done. Qed.

Lemma own_container (p : option object) (m : gmap string V) (k : string) :
  own (container e p m) k = (λ v, Obj (e k v)) <$> m !! k.
Proof.
  unfold own, container; simpl.
  destruct (String.eqb_spec k "children") as [->|Hk].
  - by destruct (m !! "children").
  - rewrite map_lookup_imap, lookup_delete_ne by done.
    by destruct (m !! k).
Qed.

Lemma node_at_container (p : option object) (m : gmap string V) (k : string) :
  node_at (container e p m) k = e k <$> m !! k.
Proof. unfold node_at. rewrite own_container. by destruct (m !! k). Qed.

Lemma set_own_container (p : option object) (m : gmap string V) (k : string) (v : V) :
  set_own (container e p m) k (e k v) = container e p (<[k := v]> m).
Proof.
  unfold set_own, container; simpl.
  destruct (String.eqb_spec k "children") as [->|Hk].
  - by rewrite lookup_insert_eq, delete_insert_eq.
  - rewrite lookup_insert_ne, delete_insert_ne by done.
    by rewrite map_imap_insert.
Qed.

Lemma get_container (m : gmap string V) (k : string) :
  get (container e None m) k =
  match m !! k with
  | Some v => Value (Obj (e k v))
  | None => if inherited k then Builtin else Undefined
  end.
Proof.
  unfold get. rewrite lookup_chain_unfold, own_container. simpl.
  destruct (m !! k); simpl; [done|].
  destruct (String.eqb_spec k "__proto__") as [->|]; done.
Qed.

(** [if (!c[k]) c[k] = v] on a dictionary whose prototype is
    [Object.prototype]: nothing is written at a key that is present or
    that [Object.prototype] defines. *)
Lemma guarded_put_container (m : gmap string V) (k : string) (v : V) :
  guarded_put k (e k v) (container e None m) =
  container e None
    (if bool_decide (is_Some (m !! k)) || inherited k then m else <[k := v]> m).
Proof.
  unfold guarded_put. rewrite get_container.
  destruct (m !! k) as [x|] eqn:E.
  - by rewrite bool_decide_eq_true_2 by eauto.
  - rewrite bool_decide_eq_false_2 by (by intros [? ?]).
    destruct (inherited k) eqn:Hk; simpl; [done|].
    unfold put. rewrite eqb_proto_plain by done.
    apply set_own_container.
Qed.

Lemma update_container_Some (p : option object) (m : gmap string V) (k : string)
    (v : V) (g : object → option object) :
  m !! k = Some v →
  update (container e p m) k g =
  x' ← g (e k v); Some (set_own (container e p m) k x').
Proof. intros Hk. apply update_own. by rewrite own_container, Hk. Qed.

Lemma update_container_None (m : gmap string V) (k : string)
    (g : object → option object) :
  m !! k = None → update (container e None m) k g = None.
Proof. intros Hk. apply update_missing; [|done]. by rewrite own_container, Hk. Qed.

Lemma size_map_imap {B} (h : string → V → B) (m : gmap string V) :
  size (map_imap (λ k v, Some (h k v)) m) = size m.
Proof.
  induction m as [|k v m Hk _ IH] using map_first_key_ind.
  - by rewrite map_imap_empty.
  - rewrite map_imap_insert, !map_size_insert, Hk, IH.
    by rewrite map_lookup_imap, Hk.
Qed.

(** [Object.keys(c).length] *)
Lemma keys_length_container (p : option object) (m : gmap string V) :
  keys_length (container e p m) = size m.
Proof.
  unfold keys_length, container; simpl.
  rewrite delete_id by (by rewrite map_lookup_imap, lookup_delete_eq).
  rewrite size_map_imap, map_size_delete.
  destruct (m !! "children") eqn:E; simpl; [|lia].
  assert (size m ≠ 0); [|lia].
  apply map_size_ne_0_lookup. eauto.
Qed.

End Containers.

(** ** The nodes *)

Section Nodes.

Lemma new_track_inj (t f t' f' : string) :
  new_track t f = new_track t' f' → t = t' ∧ f = f'.
Proof.
  intros E. apply (f_equal fields) in E. simpl in E.
  pose proof (f_equal (λ m : gmap string (value object), m !! "name") E) as E1.
  pose proof (f_equal (λ m : gmap string (value object), m !! "file") E) as E2.
  simpl in E1, E2. vm_compute in E1, E2. by simplify_eq.
Qed.

Lemma name_of_new_track (t f : string) : name_of (new_track t f) = Some t.
Proof. reflexivity. Qed.

Lemma file_of_new_track (t f : string) : file_of (new_track t f) = Some f.
Proof. reflexivity. Qed.

Lemma name_of_embed_album (al : string) (A : gmap string string) :
  name_of (embed_album al A) = Some al.
Proof. reflexivity. Qed.

Lemma name_of_embed_artist (a : string) (n : artist_shape) :
  name_of (embed_artist a n) = Some a.
Proof. unfold embed_artist. by destruct (from_directory n). Qed.

Lemma new_album_embed (al : string) : new_album al = embed_album al ∅.
Proof. unfold embed_album. by rewrite container_empty. Qed.

Lemma new_artist_embed (a : string) : new_artist a = embed_artist a fresh_artist.
Proof. unfold embed_artist. simpl. by rewrite container_empty. Qed.

Lemma new_directory_embed (d : string) :
  new_directory d = embed_artist d (mkArtistShape true ∅).
Proof. unfold embed_artist. simpl. by rewrite container_empty. Qed.

(** [x.children] of an artist node and of an album node. *)
Lemma update_embed_artist (a : string) (n : artist_shape)
    (g : object → option object) (als : gmap string (gmap string string)) :
  g (container embed_album None (albums n)) = Some (container embed_album None als) →
  update (embed_artist a n) "children" g =
  Some (embed_artist a (mkArtistShape (from_directory n) als)).
Proof.
  intros Hg.
  rewrite (update_children _ (container embed_album None (albums n))) by done.
  by rewrite Hg.
Qed.

Lemma update_embed_artist_None (a : string) (n : artist_shape)
    (g : object → option object) :
  g (container embed_album None (albums n)) = None →
  update (embed_artist a n) "children" g = None.
Proof.
  intros Hg.
  rewrite (update_children _ (container embed_album None (albums n))) by done.
  by rewrite Hg.
Qed.

Lemma update_embed_album (al : string) (A A' : gmap string string)
    (g : object → option object) :
  g (container new_track None A) = Some (container new_track None A') →
  update (embed_album al A) "children" g = Some (embed_album al A').
Proof.
  intros Hg.
  rewrite (update_children _ (container new_track None A)) by done.
  by rewrite Hg.
Qed.

End Nodes.
(** ** The loop on the objects and on the own part *)

Section Simulation.

Implicit Types (m : tree_shape) (pc : option object).

Lemma own_prototype_node (C : object) (k : string) :
  own (prototype_node C) k =
  if String.eqb k "children" then Some (Obj C)
  else if String.eqb k "name" then Some (Str "__proto__")
  else None.
Proof.
  unfold own, prototype_node; simpl.
  destruct (String.eqb_spec k "children") as [->|Hc]; [done|].
  destruct (String.eqb_spec k "name") as [->|Hn]; [done|].
  by apply lookup_singleton_ne.
Qed.

Lemma get_embed_tree_own m pc (a : string) (n : artist_shape) :
  m !! a = Some n → get (embed_tree pc m) a = Value (Obj (embed_artist a n)).
Proof.
  intros Ha. unfold get, embed_tree.
  by rewrite lookup_chain_unfold, own_container, Ha.
Qed.

Lemma get_embed_tree_fresh m pc (a : string) :
  m !! a = None → inherited a = false →
  replaced pc && (String.eqb a "name" || String.eqb a "children") = false →
  get (embed_tree pc m) a = Undefined.
Proof.
  intros Ha Hi Hp. unfold get, embed_tree.
  rewrite lookup_chain_unfold, own_container, Ha, proto_container.
  rewrite (eqb_proto_plain _ Hi), Hi.
  destruct pc as [C|]; [|done].
  cbn [fmap option_fmap option_map]. simpl in Hp.
  rewrite lookup_chain_unfold, own_prototype_node.
  apply orb_false_iff in Hp as [-> ->]. done.
Qed.

(** Line 196 *)
Lemma guarded_put_embed_tree m pc (a : string) :
  own_resolves m (replaced pc) a = true →
  guarded_put a (new_artist a) (embed_tree pc m) =
  embed_tree pc
    (if bool_decide (is_Some (m !! a)) then m else <[a := fresh_artist]> m).
Proof.
  unfold own_resolves, guarded_put. intros Hres.
  destruct (m !! a) as [n|] eqn:Ha.
  - rewrite (get_embed_tree_own _ _ _ n) by done.
    by rewrite bool_decide_eq_true_2 by eauto.
  - rewrite bool_decide_eq_false_2 in * by (by intros [? ?]).
    simpl in Hres. apply andb_true_iff in Hres as [Hi Hp].
    apply negb_true_iff in Hi, Hp.
    rewrite get_embed_tree_fresh by done. simpl.
    unfold put. rewrite eqb_proto_plain by done.
    rewrite new_artist_embed. apply set_own_container.
Qed.

(** Lines 196-217 when [musicdata.children[artist]] is an own property:
    the call throws when the album is a name that [Object.prototype]
    defines and is no key yet, and does the three guarded assignments on
    the own part otherwise. *)
Lemma add_track_own (f : string) (md : Metadata) m pc :
  own_resolves m (replaced pc) (resolved_artist md) = true →
  add_track f md (embed_tree pc m) =
  if bool_decide (is_Some (albums (default fresh_artist (m !! resolved_artist md))
                             !! resolved_album md))
     || negb (inherited (resolved_album md))
  then Some (embed_tree pc (track_step f md m))
  else None.
Proof.
  intros Hres. unfold add_track, track_step.
  set (a := resolved_artist md) in *.
  set (al := resolved_album md).
  set (t := resolved_title f md).
  rewrite guarded_put_embed_tree by done.
  set (n := default fresh_artist (m !! a)).
  set (m1 := if bool_decide (is_Some (m !! a)) then m else <[a := fresh_artist]> m).
  assert (Hm1 : m1 !! a = Some n).
  { unfold m1, n. case_bool_decide as E.
    - destruct E as [x Hx]. by rewrite Hx.
    - rewrite lookup_insert_eq. destruct (m !! a) eqn:E'; [|done].
      exfalso. eauto. }
  assert (Hins : ∀ x, <[a := x]> m1 = <[a := x]> m).
  { intros x. unfold m1. case_bool_decide; [done|]. apply insert_insert_eq. }
  set (als1 := if bool_decide (is_Some (albums n !! al)) || inherited al
               then albums n else <[al := ∅]> (albums n)).
  unfold embed_tree.
  rewrite (update_container_Some embed_artist _ m1 a n) by done.
  rewrite (update_embed_artist a n _ als1)
    by (by rewrite new_album_embed, guarded_put_container).
  simpl. rewrite set_own_container, Hins.
  set (n1 := mkArtistShape (from_directory n) als1).
  rewrite (update_container_Some embed_artist _ (<[a := n1]> m) a n1)
    by apply lookup_insert_eq.
  assert (Hsome : ∀ A, albums n !! al = Some A → als1 = albums n).
  { intros A HA. unfold als1. by rewrite HA, bool_decide_eq_true_2 by eauto. }
  assert (Hnone : albums n !! al = None →
                  als1 = if inherited al then albums n else <[al := ∅]> (albums n)).
  { intros HA. unfold als1.
    by rewrite HA, bool_decide_eq_false_2 by (by intros [? ?]). }
  clearbody als1.
  destruct (albums n !! al) as [A|] eqn:HA.
  - (* the album is there *)
    pose proof (Hsome A eq_refl) as ->. clear Hsome Hnone.
    rewrite (update_embed_artist a n1 _
               (<[al := if bool_decide (is_Some (A !! t)) || inherited t
                        then A else <[t := f]> A]> (albums n))).
    2:{ unfold n1. cbn [albums].
        rewrite (update_container_Some embed_album _ (albums n) al A) by done.
        rewrite (update_embed_album al A _ _)
          by (by rewrite guarded_put_container).
        cbn [mbind option_bind]. by rewrite set_own_container. }
    cbn [mbind option_bind]. rewrite set_own_container, insert_insert_eq.
    rewrite (bool_decide_eq_true_2 (is_Some (Some A))) by (by eexists).
    reflexivity.
  - rewrite (bool_decide_eq_false_2 (is_Some None)) by (by intros [? ?]).
    pose proof (Hnone eq_refl) as ->. clear Hsome Hnone.
    destruct (inherited al) eqn:Hal.
    + (* the album is a property of Object.prototype *)
      rewrite update_embed_artist_None; [done|].
      unfold n1. cbn [albums]. by apply update_container_None.
    + (* the album is created *)
      rewrite (update_embed_artist a n1 _
                 (<[al := if bool_decide (is_Some ((∅ : gmap string string) !! t))
                             || inherited t
                          then ∅ else <[t := f]> ∅]> (<[al := ∅]> (albums n)))).
      2:{ unfold n1. cbn [albums].
          rewrite (update_container_Some embed_album _ _ al ∅)
            by apply lookup_insert_eq.
          rewrite (update_embed_album al ∅ _ _)
            by (by rewrite guarded_put_container).
          cbn [mbind option_bind]. by rewrite set_own_container. }
      cbn [mbind option_bind negb orb].
      by rewrite set_own_container, !insert_insert_eq.
Qed.

(** While the prototype is [Object.prototype], an artist that is no own
    property and cannot become one makes the call throw. *)
Lemma add_track_unresolved (f : string) (md : Metadata) m :
  own_resolves m false (resolved_artist md) = false →
  add_track f md (embed_tree None m) = None.
Proof.
  unfold own_resolves. intros Hres.
  apply orb_false_iff in Hres as [Ha Hi].
  apply bool_decide_eq_false in Ha.
  assert (m !! resolved_artist md = None) as Hm.
  { destruct (m !! resolved_artist md) eqn:E; [|done]. exfalso. apply Ha. eauto. }
  simpl in Hi. rewrite andb_true_r in Hi. apply negb_false_iff in Hi.
  unfold add_track, guarded_put, embed_tree.
  rewrite get_container, Hm, Hi. simpl.
  by rewrite update_container_None.
Qed.

(** With a directory node as prototype, an artist that is found on the
    chain throws or changes the [children] of that node and nothing
    else. *)
Lemma update_inherited_eq m (C : object) (a : string) (h : object → option object) :
  m !! a = None →
  update (embed_tree (Some C) m) a (λ x, update x "children" h) =
  if String.eqb a "children" then
    C' ← update C "children" h; Some (embed_tree (Some C') m)
  else if String.eqb a "name" then None
  else if String.eqb a "__proto__" then
    C' ← h C; Some (embed_tree (Some C') m)
  else None.
Proof.
  intros Ha. unfold update at 1, embed_tree.
  rewrite update_chain_unfold, own_container, Ha, proto_container.
  cbn [fmap option_fmap option_map].
  rewrite update_chain_unfold, own_prototype_node.
  destruct (String.eqb_spec a "children") as [->|Hc]; simpl.
  { by destruct (update C "children" h). }
  destruct (String.eqb_spec a "name") as [->|Hn]; simpl; [done|].
  destruct (String.eqb_spec a "__proto__") as [->|Hp]; simpl; [|done].
  rewrite (update_children (prototype_node C) C) by done.
  by destruct (h C).
Qed.

Lemma update_inherited m (C : object) (a : string) (h : object → option object) :
  m !! a = None →
  update (embed_tree (Some C) m) a (λ x, update x "children" h) = None ∨
  ∃ C', update (embed_tree (Some C) m) a (λ x, update x "children" h) =
        Some (embed_tree (Some C') m).
Proof.
  intros Ha. rewrite update_inherited_eq by done.
  destruct (String.eqb a "children").
  { destruct (update C "children" h); simpl; eauto. }
  destruct (String.eqb a "name"); [by left|].
  destruct (String.eqb a "__proto__"); [|by left].
  destruct (h C); simpl; eauto.
Qed.

Lemma get_inherited_truthy m pc (a : string) :
  m !! a = None → own_resolves m (replaced pc) a = false →
  is_truthy (get (embed_tree pc m) a) = true.
Proof.
  unfold own_resolves. intros Ha Hres.
  rewrite Ha, bool_decide_eq_false_2 in Hres by (by intros [? ?]).
  simpl in Hres. unfold get, embed_tree.
  rewrite lookup_chain_unfold, own_container, Ha, proto_container.
  destruct pc as [C|]; cbn [fmap option_fmap option_map]; simpl in Hres.
  - rewrite lookup_chain_unfold, own_prototype_node.
    destruct (String.eqb a "children"); [done|].
    destruct (String.eqb a "name"); [done|]. simpl in *.
    rewrite andb_true_r in Hres. apply negb_false_iff in Hres.
    destruct (String.eqb a "__proto__"); [done|]. by rewrite Hres.
  - rewrite andb_true_r in Hres. apply negb_false_iff in Hres.
    destruct (String.eqb a "__proto__"); [done|]. by rewrite Hres.
Qed.

Lemma add_track_inherited (f : string) (md : Metadata) m pc :
  own_resolves m (replaced pc) (resolved_artist md) = false →
  add_track f md (embed_tree pc m) = None ∨
  ∃ C', replaced pc = true ∧
        add_track f md (embed_tree pc m) = Some (embed_tree (Some C') m).
Proof.
  intros Hres.
  assert (m !! resolved_artist md = None) as Hm.
  { unfold own_resolves in Hres. apply orb_false_iff in Hres as [Ha _].
    apply bool_decide_eq_false in Ha.
    destruct (m !! resolved_artist md) eqn:E; [|done]. exfalso. apply Ha. eauto. }
  destruct pc as [C|]; [|left; by apply add_track_unresolved].
  unfold add_track, guarded_put.
  rewrite get_inherited_truthy by done.
  destruct (update_inherited m C (resolved_artist md)
              (λ c, Some (if is_truthy (get c (resolved_album md)) then c
                          else put c (resolved_album md)
                                 (new_album (resolved_album md)))) Hm)
    as [->|[C1 ->]]; [by left|].
  simpl.
  destruct (update_inherited m C1 (resolved_artist md)
              (λ c, update c (resolved_album md) (λ y, update y "children" (λ k,
                 Some (if is_truthy (get k (resolved_title f md)) then k
                       else put k (resolved_title f md)
                              (new_track (resolved_title f md) f))))) Hm)
    as [->|[C2 ->]]; [by left|].
  right. by exists C2.
Qed.

(** Line 220 *)
Lemma add_directory_embed (n : string) m pc :
  m !! "__proto__" = None →
  add_directory n (embed_tree pc m) =
  if String.eqb (Path.basename n) "__proto__"
  then embed_tree (Some empty_object) m
  else embed_tree pc (directory_step (Path.basename n) m).
Proof.
  intros Hp. unfold add_directory, put, directory_step.
  destruct (String.eqb_spec (Path.basename n) "__proto__") as [->|Hd].
  - unfold embed_tree. rewrite lookup_chain_unfold, own_container, Hp. simpl.
    by destruct pc.
  - rewrite new_directory_embed. apply set_own_container.
Qed.

(** The states of the loop are the objects [embed_tree pc m] in which
    [__proto__] is no own property. *)
Lemma track_step_proto (f : string) (md : Metadata) m (b : bool) :
  m !! "__proto__" = None →
  own_resolves m b (resolved_artist md) = true →
  track_step f md m !! "__proto__" = None.
Proof.
  intros Hp Hres. unfold track_step.
  rewrite lookup_insert_ne; [done|]. intros E.
  unfold own_resolves in Hres. rewrite E, Hp in Hres.
  by rewrite bool_decide_eq_false_2 in Hres by (by intros [? ?]).
Qed.

Lemma shape_visit_proto (s : tree_shape * bool) (i : item) :
  s.1 !! "__proto__" = None → (shape_visit s i).1 !! "__proto__" = None.
Proof.
  intros Hp. unfold shape_visit, reaches_own.
  destruct (track_of i) as [[f md]|].
  - destruct (own_resolves _ _ _) eqn:E; [|done].
    destruct (_ || _); [|done]. by eapply track_step_proto.
  - destruct (is_directory i); [|done].
    destruct (name i) as [n|]; [|done].
    destruct (String.eqb_spec (Path.basename n) "__proto__"); [done|].
    simpl. unfold directory_step. by rewrite lookup_insert_ne.
Qed.

Lemma shape_run_proto (l : list item) : ∀ s : tree_shape * bool,
  s.1 !! "__proto__" = None → (shape_run l s).1 !! "__proto__" = None.
Proof.
  induction l as [|i l IH]; intros s Hs; [done|].
  apply IH. by apply shape_visit_proto.
Qed.

Lemma shape_run_cons (i : item) (l : list item) (s : tree_shape * bool) :
  shape_run (i :: l) s = shape_run l (shape_visit s i).
Proof. done. Qed.

(** One entry that does not throw. *)
Lemma visit_embed m pc (i : item) (T' : object) :
  m !! "__proto__" = None →
  visit (embed_tree pc m) i = Some T' →
  ∃ pc', T' = embed_tree pc' (shape_visit (m, replaced pc) i).1 ∧
         replaced pc' = (shape_visit (m, replaced pc) i).2.
Proof.
  intros Hp. unfold visit, shape_visit, reaches_own.
  destruct (track_of i) as [[f md]|]; simpl.
  - destruct (own_resolves m (replaced pc) (resolved_artist md)) eqn:Hres.
    + rewrite add_track_own by done.
      destruct (_ || _); [|done]. intros [= <-]. by exists pc.
    + destruct (add_track_inherited f md m pc Hres) as [->|(C' & Hr & ->)]; [done|].
      intros [= <-]. exists (Some C'). by rewrite Hr.
  - destruct (is_directory i); [|intros [= <-]; by exists pc].
    destruct (name i) as [n|]; [|done].
    intros [= <-]. rewrite add_directory_embed by done.
    destruct (String.eqb (Path.basename n) "__proto__"); eauto.
Qed.

Lemma forEach_embed (l : list item) : ∀ m pc (T' : object),
  m !! "__proto__" = None →
  forEach l (embed_tree pc m) = Some T' →
  ∃ pc', T' = embed_tree pc' (shape_run l (m, replaced pc)).1.
Proof.
  induction l as [|i l IH]; intros m pc T' Hp Hf; simpl in Hf.
  - injection Hf as <-. by exists pc.
  - destruct (visit (embed_tree pc m) i) as [T1|] eqn:Hv; [|done].
    destruct (visit_embed _ _ _ _ Hp Hv) as (pc1 & -> & Hr).
    destruct (IH _ _ _ (shape_visit_proto (m, replaced pc) i Hp) Hf) as (pc' & ->).
    exists pc'. rewrite shape_run_cons, Hr.
    by destruct (shape_visit (m, replaced pc) i).
Qed.

Lemma embed_tree_empty : embed_tree None ∅ = empty_object.
Proof. apply container_empty. Qed.

(** The tree handed to the widget: its own part is [shape_of data]. *)
Lemma fetchMusic_shape (data : list item) (M : object) :
  fetchMusic data = Some M →
  ∃ pc, M = musicdata (embed_tree pc (shape_of data)).
Proof.
  unfold fetchMusic. rewrite <-embed_tree_empty. intros HM.
  destruct (forEach data (embed_tree None ∅)) as [T|] eqn:Hf; [|done].
  injection HM as <-.
  destruct (forEach_embed _ _ _ _ (lookup_empty _) Hf) as (pc & ->).
  by exists pc.
Qed.

Lemma forEach_app (l1 : list item) : ∀ (l2 : list item) (T : object),
  forEach (l1 ++ l2) T = forEach l1 T ≫= forEach l2.
Proof.
  induction l1 as [|i l1 IH]; simpl; intros l2 T; [done|].
  destruct (visit T i); simpl; [apply IH|done].
Qed.

Lemma shape_run_app (l1 l2 : list item) (s : tree_shape * bool) :
  shape_run (l1 ++ l2) s = shape_run l2 (shape_run l1 s).
Proof. apply foldl_app. Qed.

(** While no directory is called [__proto__] the loop is a function of
    the own part. *)
Lemma visit_exact m (i : item) :
  m !! "__proto__" = None →
  directory_named "__proto__" i = false →
  visit (embed_tree None m) i =
  if shape_throws m i then None
  else Some (embed_tree None (shape_visit (m, false) i).1).
Proof.
  intros Hp Hd. unfold visit, shape_visit, shape_throws, reaches_own, nameless,
    directory_named, directory_entry in *.
  destruct (track_of i) as [[f md]|]; simpl.
  - destruct (own_resolves m false (resolved_artist md)) eqn:Hres; simpl.
    + rewrite (add_track_own f md m None) by done.
      by destruct (_ || _).
    + by apply add_track_unresolved.
  - destruct (is_directory i); [|done]. simpl in *.
    destruct (name i) as [n|]; [|done].
    rewrite add_directory_embed by done.
    apply bool_decide_eq_false in Hd.
    by destruct (String.eqb_spec (Path.basename n) "__proto__").
Qed.

Lemma forEach_exact (l : list item) : ∀ m,
  m !! "__proto__" = None →
  existsb (directory_named "__proto__") l = false →
  forEach l (embed_tree None m) = embed_tree None <$> shape_forEach l m.
Proof.
  induction l as [|i l IH]; simpl; intros m Hp Hd; [done|].
  apply orb_false_iff in Hd as [Hd1 Hd2].
  rewrite visit_exact by done.
  destruct (shape_throws m i); [done|].
  apply IH; [|done]. by apply (shape_visit_proto (m, false)).
Qed.

Lemma fetchMusic_exact (data : list item) :
  existsb (directory_named "__proto__") data = false →
  fetchMusic data = (λ m, musicdata (embed_tree None m)) <$> shape_forEach data ∅.
Proof.
  intros Hd. unfold fetchMusic.
  rewrite <-embed_tree_empty, forEach_exact by done.
  by destruct (shape_forEach data ∅).
Qed.

Lemma shape_visit_flag (s : tree_shape * bool) (i : item) :
  (shape_visit s i).2 = s.2 || directory_named "__proto__" i.
Proof.
  unfold shape_visit, directory_named, directory_entry.
  destruct (track_of i) as [[f md]|].
  - destruct (reaches_own _ _ _); simpl; by rewrite orb_false_r.
  - destruct (is_directory i); simpl; [|by rewrite orb_false_r].
    destruct (name i) as [n|]; simpl; [|by rewrite orb_false_r].
    destruct (String.eqb_spec (Path.basename n) "__proto__") as [E|E]; simpl.
    + rewrite bool_decide_eq_true_2 by done. by rewrite orb_true_r.
    + rewrite bool_decide_eq_false_2 by done. by rewrite orb_false_r.
Qed.

Lemma shape_run_flag (l : list item) : ∀ s : tree_shape * bool,
  (shape_run l s).2 = s.2 || existsb (directory_named "__proto__") l.
Proof.
  induction l as [|i l IH]; intros s; [by rewrite orb_false_r|].
  rewrite shape_run_cons, IH, shape_visit_flag. simpl. by rewrite orb_assoc.
Qed.

Lemma shape_forEach_run (l : list item) : ∀ m m',
  shape_forEach l m = Some m' →
  existsb (directory_named "__proto__") l = false →
  m' = (shape_run l (m, false)).1.
Proof.
  induction l as [|i l IH]; intros m m' Hf Hd; simpl in Hf, Hd.
  - by injection Hf as <-.
  - apply orb_false_iff in Hd as [Hd1 Hd2].
    destruct (shape_throws m i); [done|].
    rewrite (IH _ _ Hf Hd2), shape_run_cons.
    pose proof (shape_visit_flag (m, false) i) as Hfl.
    rewrite Hd1 in Hfl. simpl in Hfl.
    destruct (shape_visit (m, false) i) as [m1 b1]. simpl in *. by subst b1.
Qed.

End Simulation.
(** ** Reading the tree that was built *)

Section Reading.

Implicit Types (m : tree_shape) (pc : option object).

Lemma lookup_artist_embed pc m (a : string) :
  lookup_artist (musicdata (embed_tree pc m)) a = embed_artist a <$> m !! a.
Proof. unfold lookup_artist. simpl. apply node_at_container. Qed.

Lemma lookup_album_embed pc m (a al : string) :
  lookup_album (musicdata (embed_tree pc m)) a al =
  n ← m !! a; embed_album al <$> albums n !! al.
Proof.
  unfold lookup_album. rewrite lookup_artist_embed.
  destruct (m !! a) as [n|]; simpl; [|done]. apply node_at_container.
Qed.

Lemma lookup_track_embed pc m (a al t : string) :
  lookup_track (musicdata (embed_tree pc m)) a al t =
  new_track t <$> shape_track m a al t.
Proof.
  unfold lookup_track, shape_track. rewrite lookup_album_embed.
  destruct (m !! a) as [n|]; simpl; [|done].
  destruct (albums n !! al) as [A|]; simpl; [|done].
  apply node_at_container.
Qed.

(** The labels of a path are its keys. *)
Lemma path_labels_embed pc m (a al t : string) :
  path_labels (musicdata (embed_tree pc m)) a al t =
  (λ _, (a, al, t)) <$> shape_track m a al t.
Proof.
  unfold path_labels.
  rewrite lookup_track_embed, lookup_album_embed, lookup_artist_embed.
  unfold shape_track.
  destruct (m !! a) as [n|]; simpl; [|done].
  destruct (albums n !! al) as [A|]; simpl; [|done].
  destruct (A !! t) as [f|]; simpl; [|done].
  by rewrite name_of_embed_artist.
Qed.

End Reading.

(** ** The own part, one entry at a time *)

Section ShapeSteps.

Implicit Types (m : tree_shape) (s : tree_shape * bool).

Lemma track_of_truthy (i : item) (f : string) (md : Metadata) :
  track_of i = Some (f, md) →
  file i = Some f ∧ metadata i = Some md ∧ f ≠ "".
Proof.
  unfold track_of. destruct (file i) as [f'|]; [|done].
  destruct (metadata i) as [md'|]; [|done]. simpl.
  destruct (String.eqb_spec f' ""); simpl; [done|]. by intros [= <- <-].
Qed.

Lemma shape_track_empty (a al t : string) : shape_track ∅ a al t = None.
Proof. unfold shape_track. by rewrite lookup_empty. Qed.

(** A track entry touches one key of every level and never removes or
    replaces a track that is already there; it files nothing under a
    title that [Object.prototype] defines. *)
Lemma shape_track_track_step (f : string) (md : Metadata) m (a al t : string) :
  shape_track (track_step f md m) a al t =
  if decide ((a, al, t) = (resolved_artist md, resolved_album md, resolved_title f md))
  then match shape_track m a al t with
       | Some x => Some x
       | None => if inherited t then None else Some f
       end
  else shape_track m a al t.
Proof.
  unfold shape_track, track_step.
  set (ra := resolved_artist md). set (ral := resolved_album md).
  set (rt := resolved_title f md).
  destruct (decide (a = ra)) as [->|Ha].
  2:{ rewrite lookup_insert_ne by done. by rewrite decide_False by congruence. }
  rewrite lookup_insert_eq. simpl.
  destruct (decide (al = ral)) as [->|Hal].
  2:{ rewrite lookup_insert_ne by done. rewrite decide_False by congruence.
      destruct (m !! ra); simpl; [done|]. by rewrite lookup_empty. }
  rewrite lookup_insert_eq. simpl.
  assert (E : (m !! ra ≫= λ n, albums n !! ral ≫= λ A, A !! t) =
              default ∅ (albums (default fresh_artist (m !! ra)) !! ral) !! t).
  { destruct (m !! ra) as [n|]; simpl.
    - destruct (albums n !! ral); simpl; [done|]. by rewrite lookup_empty.
    - by rewrite !lookup_empty. }
  rewrite E. clear E.
  set (A := default ∅ (albums (default fresh_artist (m !! ra)) !! ral)).
  destruct (decide (t = rt)) as [->|Ht].
  - rewrite decide_True by done.
    destruct (A !! rt) as [x|] eqn:EA.
    + rewrite bool_decide_eq_true_2 by eauto. simpl. by rewrite EA.
    + rewrite bool_decide_eq_false_2 by (by intros [? ?]). simpl.
      destruct (inherited rt); [done|]. by rewrite lookup_insert_eq.
  - rewrite decide_False by congruence.
    destruct (_ || _); [done|]. by rewrite lookup_insert_ne.
Qed.

Lemma shape_track_directory_step (d : string) m (a al t : string) :
  shape_track (directory_step d m) a al t =
  if decide (d = a) then None else shape_track m a al t.
Proof.
  unfold shape_track, directory_step. rewrite lookup_insert.
  case_decide; simpl; [|done]. by rewrite lookup_empty.
Qed.

(** A track that is in the tree stays as it is until a directory entry
    with the artist's name comes by. *)
Lemma shape_track_visit_Some s (i : item) (a al t x : string) :
  directory_named a i = false →
  shape_track s.1 a al t = Some x →
  shape_track (shape_visit s i).1 a al t = Some x.
Proof.
  unfold shape_visit, directory_named, directory_entry. intros Hd Hx.
  destruct (track_of i) as [[f md]|].
  - destruct (reaches_own _ _ _); [|done]. simpl.
    rewrite shape_track_track_step. case_decide; [|done]. by rewrite Hx.
  - destruct (is_directory i); [|done].
    destruct (name i) as [n|]; [|done]. simpl in Hd.
    apply bool_decide_eq_false in Hd.
    destruct (String.eqb _ _); [done|]. simpl.
    by rewrite shape_track_directory_step, decide_False.
Qed.

Lemma shape_track_run_Some (l : list item) : ∀ s (a al t x : string),
  existsb (directory_named a) l = false →
  shape_track s.1 a al t = Some x →
  shape_track (shape_run l s).1 a al t = Some x.
Proof.
  induction l as [|i l IH]; intros s a al t x Hd Hx; [done|].
  simpl in Hd. apply orb_false_iff in Hd as [Hd1 Hd2].
  rewrite shape_run_cons. apply IH; [done|]. by apply shape_track_visit_Some.
Qed.

(** Where a track in the tree comes from. *)
Lemma shape_track_visit_inv s (i : item) (a al t x : string) :
  shape_track (shape_visit s i).1 a al t = Some x →
  shape_track s.1 a al t = Some x ∨
  (writes (a, al, t) i = true ∧ inherited t = false ∧
   ∃ md, track_of i = Some (x, md)).
Proof.
  unfold shape_visit, writes, track_key. intros Hx.
  destruct (track_of i) as [[f md]|].
  - destruct (reaches_own _ _ _); [|by left]. simpl in Hx.
    rewrite shape_track_track_step in Hx. case_decide as Hk; [|by left].
    destruct (shape_track s.1 a al t) as [y|]; [by left|].
    destruct (inherited t) eqn:Ht; [done|]. injection Hx as <-.
    right. split_and!; [|done|by eauto].
    apply bool_decide_eq_true. by rewrite Hk.
  - destruct (is_directory i); [|by left].
    destruct (name i) as [n|]; [|by left].
    destruct (String.eqb _ _); [by left|]. simpl in Hx.
    rewrite shape_track_directory_step in Hx. case_decide; [done|by left].
Qed.

Lemma shape_track_run_inv (l : list item) : ∀ s (a al t x : string),
  shape_track (shape_run l s).1 a al t = Some x →
  shape_track s.1 a al t = Some x ∨
  (inherited t = false ∧
   ∃ i md, i ∈ l ∧ writes (a, al, t) i = true ∧ track_of i = Some (x, md)).
Proof.
  induction l as [|i l IH]; intros s a al t x Hx; [by left|].
  rewrite shape_run_cons in Hx.
  destruct (IH _ _ _ _ _ Hx) as [H1|(Ht & j & md & Hj & Hw & Htr)].
  - destruct (shape_track_visit_inv _ _ _ _ _ _ H1) as [H0|(Hw & Ht & md & Htr)];
      [by left|].
    right. split; [done|]. exists i, md. split_and!; [|done..].
    apply list_elem_of_here.
  - right. split; [done|]. exists j, md. split_and!; [|done..].
    by apply list_elem_of_further.
Qed.

(** No entry resolving to the names in the list, no track at these names
    afterwards. *)
Lemma shape_track_run_None (l : list item) s (a al t : string) :
  existsb (writes (a, al, t)) l = false →
  shape_track s.1 a al t = None →
  shape_track (shape_run l s).1 a al t = None.
Proof.
  intros Hw Hn.
  destruct (shape_track (shape_run l s).1 a al t) as [x|] eqn:E; [|done].
  destruct (shape_track_run_inv _ _ _ _ _ _ E)
    as [H0|(_ & i & md & Hi & Hwi & _)]; [congruence|].
  assert (existsb (writes (a, al, t)) l = true); [|congruence].
  apply existsb_exists. exists i. split; [|done].
  by apply list_elem_of_In.
Qed.

(** The artist of an entry that comes after [l1] becomes, or is, an own
    property when it is not found on the prototype chain. *)
Lemma own_resolves_shadowed (l1 : list item) (a : string) :
  shadowed l1 a = false →
  own_resolves (shape_run l1 (∅, false)).1 (shape_run l1 (∅, false)).2 a = true.
Proof.
  unfold shadowed, own_resolves. intros Hs.
  apply orb_false_iff in Hs as [Hi Hp].
  rewrite shape_run_flag, Hi. simpl. rewrite Hp. apply orb_true_r.
Qed.

(** What the entry [r] files when its artist resolves to an own property
    and its title is no property of [Object.prototype]. *)
Lemma shape_track_write s (r : item) (f : string) (md : Metadata) :
  track_of r = Some (f, md) →
  own_resolves s.1 s.2 (resolved_artist md) = true →
  inherited (resolved_album md) = false →
  inherited (resolved_title f md) = false →
  shape_track (shape_visit s r).1 (resolved_artist md) (resolved_album md)
    (resolved_title f md) =
  Some (default f (shape_track s.1 (resolved_artist md) (resolved_album md)
                     (resolved_title f md))).
Proof.
  intros Hr Hres Hal Ht. unfold shape_visit, reaches_own.
  rewrite Hr, Hres, Hal, orb_true_r. simpl.
  rewrite shape_track_track_step, decide_True, Ht by done.
  by destruct (shape_track _ _ _ _).
Qed.

(** An entry that resolves to another artist leaves the top-level key
    alone. *)
Lemma track_step_ne (f : string) (md : Metadata) m (d : string) :
  resolved_artist md ≠ d → track_step f md m !! d = m !! d.
Proof. intros Hd. unfold track_step. by rewrite lookup_insert_ne. Qed.

(** An empty directory node stays what it is until a track of an artist
    with the same name comes by. *)
Lemma shape_visit_directory s (i : item) (d : string) :
  track_under d i = false →
  s.1 !! d = Some (mkArtistShape true ∅) →
  (shape_visit s i).1 !! d = Some (mkArtistShape true ∅).
Proof.
  unfold shape_visit, track_under. intros Hu Hd.
  destruct (track_of i) as [[f md]|].
  - apply bool_decide_eq_false in Hu.
    destruct (reaches_own _ _ _); [|done]. simpl.
    by rewrite track_step_ne.
  - destruct (is_directory i); [|done].
    destruct (name i) as [n|]; [|done].
    destruct (String.eqb _ _); [done|]. simpl.
    unfold directory_step. rewrite lookup_insert.
    case_decide as E; [done|done].
Qed.

Lemma shape_run_directory (l : list item) : ∀ s (d : string),
  existsb (track_under d) l = false →
  s.1 !! d = Some (mkArtistShape true ∅) →
  (shape_run l s).1 !! d = Some (mkArtistShape true ∅).
Proof.
  induction l as [|i l IH]; intros s d Hu Hd; [done|].
  simpl in Hu. apply orb_false_iff in Hu as [Hu1 Hu2].
  rewrite shape_run_cons. apply IH; [done|]. by apply shape_visit_directory.
Qed.

(** A list without hazards is built. *)
Lemma shape_throws_hazard m (i : item) : hazard i = false → shape_throws m i = false.
Proof.
  unfold hazard, shape_throws, reaches_own, own_resolves. intros Hh.
  apply orb_false_iff in Hh as [Hh Ht].
  apply orb_false_iff in Hh as [Hn _].
  destruct (track_of i) as [[f md]|]; [|done].
  apply orb_false_iff in Ht as [-> ->]. simpl.
  by rewrite !orb_true_r.
Qed.

Lemma shape_forEach_hazard (l : list item) : ∀ m,
  existsb hazard l = false → is_Some (shape_forEach l m).
Proof.
  induction l as [|i l IH]; intros m Hh; simpl; [by eexists|].
  simpl in Hh. apply orb_false_iff in Hh as [Hh1 Hh2].
  rewrite shape_throws_hazard by done. by apply IH.
Qed.

Lemma hazard_proto (l : list item) :
  existsb hazard l = false → existsb (directory_named "__proto__") l = false.
Proof.
  induction l as [|i l IH]; simpl; [done|].
  intros [Hh1 Hh2]%orb_false_iff. rewrite (IH Hh2), orb_false_r.
  unfold hazard in Hh1. apply orb_false_iff in Hh1 as [Hh1 _].
  by apply orb_false_iff in Hh1 as [_ ?].
Qed.

Lemma fetchMusic_hazard (data : list item) :
  existsb hazard data = false → is_Some (fetchMusic data).
Proof.
  intros Hh. rewrite fetchMusic_exact by (by apply hazard_proto).
  destruct (shape_forEach_hazard data ∅ Hh) as [m ->]. by eexists.
Qed.

End ShapeSteps.
(** ** Facts about numbers *)

Section Numbers.

Lemma Qle_bool_false (x y : Q) : Qle_bool x y = false ↔ (y < x)%Q.
Proof.
  split.
  - intros E. apply Qnot_le_lt. intros H%Qle_bool_iff. congruence.
  - intros H. destruct (Qle_bool x y) eqn:E; [|done].
    apply Qle_bool_iff in E. by apply Qle_not_lt in E.
Qed.

Lemma inject_Z_succ (e : Z) : (inject_Z (e + 1) == inject_Z e + 1)%Q.
Proof. by rewrite inject_Z_plus. Qed.

(** For a whole number, being below [d] is being below [d] rounded up. *)
Lemma Qlt_ceiling (e : Z) (d : Q) :
  (inject_Z e < d)%Q ↔ (e < Qceiling d)%Z.
Proof.
  split.
  - intros H. rewrite Zlt_Qlt.
    eapply Qlt_le_trans; [exact H|apply Qle_ceiling].
  - intros H. eapply Qle_lt_trans; [|apply Qceiling_lt].
    rewrite <-Zle_Qle. lia.
Qed.

(** [x > 0] and [n >= x] on a finite number. *)
Lemma positive_finite (x : float) (q : Q) :
  Binary64.value x = Binary64.Finite q →
  Binary64.positive x = true ↔ (0 < q)%Q.
Proof.
  intros Hx. unfold Binary64.positive. rewrite Hx, negb_true_iff.
  apply Qle_bool_false.
Qed.

Lemma reached_finite (n : Z) (x : float) (q : Q) :
  Binary64.value x = Binary64.Finite q →
  Binary64.reached n x = Qle_bool q (inject_Z n).
Proof. intros Hx. unfold Binary64.reached. by rewrite Hx. Qed.

Lemma positive_zero (x : float) :
  Binary64.value x = Binary64.Finite 0 → Binary64.positive x = false.
Proof. intros Hx. unfold Binary64.positive. by rewrite Hx. Qed.

Lemma isNaN_finite (x : float) (q : Q) :
  Binary64.value x = Binary64.Finite q → Binary64.isNaN x = false.
Proof. intros Hx. unfold Binary64.isNaN. by rewrite Hx. Qed.

(** The comparisons on the numbers the floats stand for agree with the
    comparisons of the floats where these can be evaluated. *)
Example positive_as_float :
  Binary64.positive 200 = (0 <? 200)%float ∧
  Binary64.positive 0 = (0 <? 0)%float ∧
  Binary64.positive (-0) = (0 <? -0)%float ∧
  Binary64.positive (-1) = (0 <? -1)%float ∧
  Binary64.positive infinity = (0 <? infinity)%float ∧
  Binary64.positive nan = (0 <? nan)%float.
Proof. by vm_compute. Qed.

Example reached_as_float :
  Binary64.reached 9 Traces.nine_point_four =
    (Traces.nine_point_four <=? Binary64.of_Z 9)%float ∧
  Binary64.reached 10 Traces.nine_point_four =
    (Traces.nine_point_four <=? Binary64.of_Z 10)%float ∧
  Binary64.reached 200 200 = (200 <=? Binary64.of_Z 200)%float ∧
  Binary64.reached 5 infinity = (infinity <=? Binary64.of_Z 5)%float ∧
  Binary64.reached 5 nan = (nan <=? Binary64.of_Z 5)%float.
Proof. by vm_compute. Qed.

Example of_Z_rounds :
  Prim2SF (Binary64.of_Z 50) = Prim2SF 50%float ∧
  Prim2SF (Binary64.of_Z 9007199254740993) = Prim2SF 9007199254740992%float.
Proof. by vm_compute. Qed.

(** Line 91 rounds twice: one third of a song of 3 seconds is shown as
    33.33333333333333, and 50 seconds of 200 as 25. *)
Example percent_1_of_3 :
  Binary64.percent 1 3 = 0x1.0aaaaaaaaaaaap+5%float.
Proof. reflexivity. Qed.

Example percent_50_of_200 : Binary64.percent 50 200 = 25%float.
Proof. reflexivity. Qed.

Example percent_10_of_9_4 :
  (100 <? Binary64.percent 10 Traces.nine_point_four)%float = true.
Proof. reflexivity. Qed.

End Numbers.

(** ** Facts about the playback handlers *)

(** [playSong] starts with a test of [currentAudio]; most facts about it
    hold in both branches by computation. *)
Ltac play_cases w :=
  unfold playSong; destruct (currentAudio (vars w)) eqn:?; done.

Section Playback.

(** The callback does nothing unless the player is playing a song of
    positive duration. *)
Lemma on_interval_idle (w : world) :
  isPlaying (vars w) = false ∨ Binary64.positive (songDuration (vars w)) = false →
  on_interval w = w.
Proof.
  unfold on_interval. intros [->| ->]; [done|]. by rewrite andb_false_r.
Qed.

Lemma tick_idle (t : nat) (w : world) :
  isPlaying (vars w) = false ∨ Binary64.positive (songDuration (vars w)) = false →
  tick t w = w.
Proof.
  intros H. unfold tick. case_bool_decide; [|done].
  by apply on_interval_idle.
Qed.

(** The callback, when its guard holds. *)
Lemma on_interval_playing (w : world) :
  isPlaying (vars w) = true →
  Binary64.positive (songDuration (vars w)) = true →
  on_interval w =
  let w2 := setPercent
              (Binary64.percent (elapsedTime (vars w) + 1) (songDuration (vars w)))
              (set_elapsedTime (elapsedTime (vars w) + 1) w) in
  if Binary64.reached (elapsedTime (vars w) + 1) (songDuration (vars w))
  then clearInterval (progressBarInterval (vars w)) w2
  else w2.
Proof. intros Hp Hd. unfold on_interval. by rewrite Hp, Hd. Qed.

(** What one firing of a live timer does while playing. *)
Lemma tick_playing (t : nat) (w : world) :
  t ∈ intervals (env w) →
  isPlaying (vars w) = true →
  Binary64.positive (songDuration (vars w)) = true →
  elapsedTime (vars (tick t w)) = (elapsedTime (vars w) + 1)%Z ∧
  progressBar (env (tick t w)) =
    Binary64.percent (elapsedTime (vars w) + 1) (songDuration (vars w))
      :: progressBar (env w) ∧
  songDuration (vars (tick t w)) = songDuration (vars w) ∧
  isPlaying (vars (tick t w)) = true.
Proof.
  intros Ht Hp Hd. unfold tick. rewrite bool_decide_eq_true_2 by done.
  rewrite on_interval_playing by done. simpl.
  destruct (Binary64.reached _ _); [|done].
  by destruct (progressBarInterval (vars w)).
Qed.

Lemma run_ticks_idle (ts : list nat) (w : world) :
  isPlaying (vars w) = false ∨ Binary64.positive (songDuration (vars w)) = false →
  run w (Tick <$> ts) = w.
Proof.
  intros H. induction ts as [|t ts IH]; [done|].
  unfold run in *. simpl. by rewrite tick_idle.
Qed.

Lemma vars_play_spawned songPath pr w :
  vars (playSong songPath Spawned pr w) =
  mkGlobals (Some (length (spawned (env w)))) true
    (Some (next_interval (env w))) (getSongDuration pr) 0.
Proof. play_cases w. Qed.

Lemma toggle_no_audio (w : world) :
  currentAudio (vars w) = None →
  togglePlayPause w = updateRecordBox "No audio playing" w.
Proof. unfold togglePlayPause. by intros ->. Qed.

End Playback.

Section PlaybackEvents.

(** The events that leave the duration, the elapsed time and the gauge
    alone when the duration is not positive: everything but [Play]. *)
Lemma step_zero_duration (w : world) (e : event) :
  Binary64.positive (songDuration (vars w)) = false →
  is_play e = false →
  songDuration (vars (step w e)) = songDuration (vars w) ∧
  elapsedTime (vars (step w e)) = elapsedTime (vars w) ∧
  progressBar (env (step w e)) = progressBar (env w).
Proof.
  intros Hd He. destruct e as [songPath r pr|child|child code|t|]; simpl.
  - done.
  - unfold on_error. by destruct (spawned (env w) !! child).
  - unfold on_exit. destruct (spawned (env w) !! child); [|done].
    case_bool_decide; simpl; by destruct (progressBarInterval (vars w)).
  - rewrite tick_idle; [done|]. by right.
  - unfold togglePlayPause. destruct (currentAudio (vars w)); [|done].
    by destruct (isPlaying (vars w)).
Qed.

Lemma run_zero_duration (es : list event) : ∀ w : world,
  Binary64.positive (songDuration (vars w)) = false →
  existsb is_play es = false →
  elapsedTime (vars (run w es)) = elapsedTime (vars w) ∧
  progressBar (env (run w es)) = progressBar (env w).
Proof.
  induction es as [|e es IH]; intros w Hd Hes; [done|].
  simpl in Hes. apply orb_false_iff in Hes as [He Hes].
  destruct (step_zero_duration w e Hd He) as (Hd1 & He1 & Hp1).
  unfold run in *. simpl.
  destruct (IH (step w e)) as [-> ->]; [by rewrite Hd1|done|done].
Qed.

Lemma spawned_play songPath pr w :
  spawned (env (playSong songPath Spawned pr w)) =
  (spawned (env w) ++ [songPath])%list.
Proof. play_cases w. Qed.

Lemma intervals_play songPath pr w :
  intervals (env (playSong songPath Spawned pr w)) =
  next_interval (env w) :: intervals (env w).
Proof. play_cases w. Qed.

Lemma play_throws songPath pr w :
  recordbox (env (playSong songPath SpawnThrows pr w)) =
    ("Error fetching: " ++ Path.basename songPath) :: recordbox (env w) ∧
  vars (playSong songPath SpawnThrows pr w) = vars w.
Proof. split; play_cases w. Qed.

Lemma on_error_spawned (child : nat) (songPath : string) (w : world) :
  spawned (env w) !! child = Some songPath →
  on_error child w =
  updateRecordBox ("Error playing: " ++ Path.basename songPath) w.
Proof. unfold on_error. by intros ->. Qed.

Lemma vars_clearInterval (h : option nat) (w : world) :
  vars (clearInterval h w) = vars w.
Proof. by destruct h. Qed.

Lemma recordbox_clearInterval (h : option nat) (w : world) :
  recordbox (env (clearInterval h w)) = recordbox (env w).
Proof. by destruct h. Qed.

Lemma intervals_clearInterval (h : option nat) (w : world) (t : nat) :
  h = Some t → t ∉ intervals (env (clearInterval h w)).
Proof.
  intros ->. simpl. rewrite list_elem_of_filter. by intros [? _].
Qed.

Lemma intervals_clearInterval_only (h : option nat) (w : world) :
  (∀ t, t ∈ intervals (env w) → h = Some t) →
  intervals (env (clearInterval h w)) = [].
Proof.
  intros Hall. destruct h as [t0|]; simpl.
  - apply elem_of_nil_inv. intros t [Hne Ht]%list_elem_of_filter.
    apply Hne. specialize (Hall t Ht). congruence.
  - destruct (intervals (env w)) as [|t ts]; [done|].
    by specialize (Hall t (list_elem_of_here _ _)).
Qed.

Lemma intervals_clearInterval_other (h : option nat) (w : world) (t : nat) :
  t ∈ intervals (env w) → h ≠ Some t → t ∈ intervals (env (clearInterval h w)).
Proof.
  intros Ht Hh. destruct h as [t0|]; simpl; [|done].
  apply list_elem_of_filter. split; [|done]. congruence.
Qed.

(** [playSong] with a child, as one assignment to the state. *)
Lemma play_spawned (songPath : string) (pr : probe) (w : world) :
  playSong songPath Spawned pr w =
  mkWorld
    (mkGlobals (Some (length (spawned (env w)))) true
       (Some (next_interval (env w))) (getSongDuration pr) 0)
    (mkHost (spawned (env w) ++ [songPath]) (signals_after_kill w)
       (next_interval (env w) :: intervals (env w)) (S (next_interval (env w)))
       (("Now playing: " ++ Path.basename songPath) :: recordbox (env w))
       (0%float :: progressBar (env w))).
Proof.
  unfold playSong, signals_after_kill.
  by destruct (currentAudio (vars w)) eqn:E.
Qed.

Lemma play_thrown (songPath : string) (pr : probe) (w : world) :
  playSong songPath SpawnThrows pr w =
  mkWorld (vars w)
    (mkHost (spawned (env w)) (signals_after_kill w) (intervals (env w))
       (next_interval (env w))
       (("Error fetching: " ++ Path.basename songPath) :: recordbox (env w))
       (progressBar (env w))).
Proof.
  unfold playSong, signals_after_kill.
  by destruct (currentAudio (vars w)) eqn:E.
Qed.

Lemma run_app (w : world) (es1 es2 : list event) :
  run w (es1 ++ es2) = run (run w es1) es2.
Proof. apply foldl_app. Qed.

End PlaybackEvents.
(** ** The loop around one entry *)

Section AroundOneEntry.

Lemma shape_of_split (l1 l2 : list item) (i : item) :
  shape_of (l1 ++ i :: l2) =
  (shape_run l2 (shape_visit (shape_run l1 (∅, false)) i)).1.
Proof. unfold shape_of. by rewrite shape_run_app, shape_run_cons. Qed.

Lemma shape_visit_directory_entry (s : tree_shape * bool) (i : item) (n : string) :
  directory_entry i = true → name i = Some n →
  Path.basename n ≠ "__proto__" →
  (shape_visit s i).1 = directory_step (Path.basename n) s.1.
Proof.
  unfold directory_entry, shape_visit. intros Hi Hn Hp.
  destruct (track_of i); [done|]. rewrite Hi, Hn.
  by destruct (String.eqb_spec (Path.basename n) "__proto__").
Qed.

Lemma visit_directory_entry (T : object) (i : item) (n : string) :
  directory_entry i = true → name i = Some n →
  visit T i = Some (add_directory n T).
Proof.
  unfold visit, directory_entry.
  destruct (track_of i) as [[f md]|]; [done|].
  by intros -> ->.
Qed.

(** One track entry on the empty tree. *)
Lemma fetchMusic_one_track (i : item) (f : string) (md : Metadata) :
  track_of i = Some (f, md) →
  inherited (resolved_artist md) = false →
  inherited (resolved_album md) = false →
  fetchMusic [i] = Some (musicdata (embed_tree None (track_step f md ∅))).
Proof.
  intros Hi Ha Hal.
  rewrite fetchMusic_exact.
  2:{ simpl. unfold directory_named, directory_entry. by rewrite Hi. }
  simpl. unfold shape_throws, shape_visit, reaches_own, own_resolves.
  rewrite Hi, Ha, Hal. simpl. by rewrite !orb_true_r.
Qed.

End AroundOneEntry.

(** * The claims *)

(** C1, as the code has it.  When several entries resolve to the same
    artist, album and title, the tree that is built holds one track under
    these names, and its file is that of the first of them, whatever
    follows it in the list.  This needs that the artist is not found on
    the prototype chain of [musicdata.children] when the first of them is
    read, that neither the album nor the title is a property of
    [Object.prototype], and that no directory entry named like the artist
    follows.  A list without hazardous names is built. *)
Theorem first_write_wins (l1 l2 : list item) (r : item) (f : string)
    (md : Metadata) :
  track_of r = Some (f, md) →
  shadowed l1 (resolved_artist md) = false →
  inherited (resolved_album md) = false →
  inherited (resolved_title f md) = false →
  existsb (writes (resolved_artist md, resolved_album md, resolved_title f md)) l1
    = false →
  existsb (directory_named (resolved_artist md)) l2 = false →
  (∀ M, fetchMusic (l1 ++ r :: l2) = Some M →
     lookup_track M (resolved_artist md) (resolved_album md) (resolved_title f md)
       = Some (new_track (resolved_title f md) f) ∧
     ∀ t n, lookup_track M (resolved_artist md) (resolved_album md) t = Some n →
            name_of n = Some (resolved_title f md) →
            t = resolved_title f md ∧ n = new_track (resolved_title f md) f) ∧
  (existsb hazard (l1 ++ r :: l2) = false →
   is_Some (fetchMusic (l1 ++ r :: l2))).
Proof.
  intros Hr Hs Hal Ht Hw Hd. split; [|apply fetchMusic_hazard].
  intros M HM. destruct (fetchMusic_shape _ _ HM) as (pc & ->).
  assert (Hk : shape_track (shape_of (l1 ++ r :: l2)) (resolved_artist md)
                 (resolved_album md) (resolved_title f md) = Some f).
  { rewrite shape_of_split. apply shape_track_run_Some; [done|].
    rewrite shape_track_write; [|done|by apply own_resolves_shadowed|done..].
    by rewrite shape_track_run_None by (done || apply shape_track_empty). }
  split.
  - by rewrite lookup_track_embed, Hk.
  - intros t n Hn Hname. rewrite lookup_track_embed in Hn.
    destruct (shape_track _ _ _ t) as [x|] eqn:E; simpl in Hn; [|done].
    injection Hn as <-. rewrite name_of_new_track in Hname.
    injection Hname as ->. split; [done|]. congruence.
Qed.

Lemma first_write_wins_witness :
  ∃ M, fetchMusic [Examples.dir "X"; Examples.song "c.mp3" "X" "Y" "W";
                   Examples.song "a.mp3" "X" "Y" "Z";
                   Examples.song "b.mp3" "X" "Y" "Z"; Examples.dir "Live"] = Some M ∧
       lookup_track M "X" "Y" "Z" = Some (new_track "Z" "a.mp3").
Proof.
  eexists. split; [reflexivity|].
  exact (proj1 (proj1 (first_write_wins
                         [Examples.dir "X"; Examples.song "c.mp3" "X" "Y" "W"]
                         [Examples.song "b.mp3" "X" "Y" "Z"; Examples.dir "Live"]
                         (Examples.song "a.mp3" "X" "Y" "Z") "a.mp3"
                         (mkMetadata (Some "X") (Some "Y") (Some "Z") None)
                         eq_refl eq_refl eq_refl eq_refl eq_refl eq_refl)
                  _ eq_refl)).
Defined.

(** C1 as stated fails: of two entries with the same names the second
    one should win, but the tree keeps the file of the first. *)
Lemma last_write_loses :
  ∃ M, fetchMusic [Examples.song "a.mp3" "X" "Y" "Z";
                   Examples.song "b.mp3" "X" "Y" "Z"] = Some M ∧
       lookup_track M "X" "Y" "Z" = Some (new_track "Z" "a.mp3") ∧
       lookup_track M "X" "Y" "Z" ≠ Some (new_track "Z" "b.mp3").
Proof.
  eexists. split; [reflexivity|].
  assert (E : lookup_track
                (musicdata (embed_tree None
                   (shape_of [Examples.song "a.mp3" "X" "Y" "Z";
                              Examples.song "b.mp3" "X" "Y" "Z"]))) "X" "Y" "Z"
              = Some (new_track "Z" "a.mp3")).
  { rewrite lookup_track_embed. by vm_compute. }
  split.
  - rewrite <-E. by vm_compute.
  - intros H. assert (E' : Some (new_track "Z" "a.mp3") = Some (new_track "Z" "b.mp3")).
    { rewrite <-E, <-H. by vm_compute. }
    apply (inj Some), new_track_inj in E'. by destruct E' as [_ ?].
Qed.

(** C2, as the code has it.  An entry with a file and metadata has, in the
    tree that is built, a track at the path of its defaulted artist, album
    and title, the [name] fields on that path are these three names, and
    no other path carries them.  This needs that the artist is not found
    on the prototype chain when the entry is read, that neither the album
    nor the title is a property of [Object.prototype], and that no
    directory entry named like the artist follows.  The file of that track
    belongs to an entry of the list that resolves to the same names.  A
    list without hazardous names is built. *)
Theorem track_reachable_by_names (l1 l2 : list item) (r : item) (f : string)
    (md : Metadata) :
  track_of r = Some (f, md) →
  shadowed l1 (resolved_artist md) = false →
  inherited (resolved_album md) = false →
  inherited (resolved_title f md) = false →
  existsb (directory_named (resolved_artist md)) l2 = false →
  (∀ M, fetchMusic (l1 ++ r :: l2) = Some M →
     ∃ n f',
       lookup_track M (resolved_artist md) (resolved_album md) (resolved_title f md)
         = Some n ∧
       n = new_track (resolved_title f md) f' ∧
       path_labels M (resolved_artist md) (resolved_album md) (resolved_title f md)
         = Some (resolved_artist md, resolved_album md, resolved_title f md) ∧
       (∀ a al t,
          path_labels M a al t
            = Some (resolved_artist md, resolved_album md, resolved_title f md) →
          (a, al, t) = (resolved_artist md, resolved_album md, resolved_title f md)) ∧
       (∃ r' md', r' ∈ (l1 ++ r :: l2)%list ∧
                  track_of r' = Some (f', md') ∧
                  track_key r' =
                    Some (resolved_artist md, resolved_album md, resolved_title f md))) ∧
  (existsb hazard (l1 ++ r :: l2) = false →
   is_Some (fetchMusic (l1 ++ r :: l2))).
Proof.
  intros Hr Hs Hal Ht Hd. split; [|apply fetchMusic_hazard].
  intros M HM. destruct (fetchMusic_shape _ _ HM) as (pc & ->).
  set (s1 := shape_run l1 (∅, false)).
  set (f' := default f (shape_track s1.1 (resolved_artist md) (resolved_album md)
                          (resolved_title f md))).
  assert (Hk : shape_track (shape_of (l1 ++ r :: l2)) (resolved_artist md)
                 (resolved_album md) (resolved_title f md) = Some f').
  { rewrite shape_of_split. apply shape_track_run_Some; [done|].
    by rewrite shape_track_write by (done || by apply own_resolves_shadowed). }
  exists (new_track (resolved_title f md) f'), f'. split_and!.
  - by rewrite lookup_track_embed, Hk.
  - done.
  - by rewrite path_labels_embed, Hk.
  - intros a al t. rewrite path_labels_embed.
    destruct (shape_track _ a al t); simpl; [|done]. by intros [= -> -> ->].
  - destruct (shape_track_run_inv _ _ _ _ _ _ Hk)
      as [H0|(_ & i & md' & Hi & Hw & Hi')].
    { by rewrite shape_track_empty in H0. }
    exists i, md'. split_and!; [done..|].
    by apply bool_decide_eq_true in Hw.
Qed.

Lemma track_reachable_by_names_witness :
  ∃ M, fetchMusic [Examples.dir "X"; Examples.song "a.mp3" "X" "Y" "Z";
                   Examples.dir "Live"] = Some M ∧
       path_labels M "X" "Y" "Z" = Some ("X", "Y", "Z").
Proof.
  eexists. split; [reflexivity|].
  destruct (proj1 (track_reachable_by_names [Examples.dir "X"] [Examples.dir "Live"]
                     (Examples.song "a.mp3" "X" "Y" "Z") "a.mp3"
                     (mkMetadata (Some "X") (Some "Y") (Some "Z") None)
                     eq_refl eq_refl eq_refl eq_refl eq_refl) _ eq_refl)
    as (n & f' & _ & _ & Hp & _).
  exact Hp.
Defined.

(** C2 as stated fails: a directory entry named like the artist of an
    earlier track removes that track; the tree has no track at all. *)
Lemma directory_drops_tracks :
  ∃ M, fetchMusic [Examples.song "a.mp3" "X" "Y" "Z"; Examples.dir "X"] = Some M ∧
       ∀ a al t, lookup_track M a al t = None ∧ path_labels M a al t = None.
Proof.
  assert (HM : fetchMusic [Examples.song "a.mp3" "X" "Y" "Z"; Examples.dir "X"] =
               Some (musicdata (embed_tree None
                       (directory_step "X"
                          (track_step "a.mp3"
                             (mkMetadata (Some "X") (Some "Y") (Some "Z") None) ∅))))).
  { by rewrite fetchMusic_exact. }
  eexists. split; [exact HM|].
  assert (H : ∀ a al t,
            shape_track
              (directory_step "X"
                 (track_step "a.mp3"
                    (mkMetadata (Some "X") (Some "Y") (Some "Z") None) ∅)) a al t
            = None).
  { intros a al t. rewrite shape_track_directory_step.
    case_decide as Ha; [done|].
    rewrite shape_track_track_step, decide_False, shape_track_empty; [done|].
    intros [= -> _ _]. by apply Ha. }
  intros a al t. by rewrite lookup_track_embed, path_labels_embed, H.
Qed.

(** C3, as the code has it.  A firing of a live timer while [isPlaying] is
    true and [songDuration > 0] adds exactly 1 to [elapsedTime] and passes
    [(elapsedTime / songDuration) * 100], as binary64 arithmetic gives it,
    to the gauge: there is no clamp.  A firing while [isPlaying] is false
    changes nothing.  After 50 firings on a song of 200 seconds the gauge
    shows 25. *)
Theorem tick_advances_unclamped (w : world) (t : nat) :
  t ∈ intervals (env w) →
  Binary64.positive (songDuration (vars w)) = true →
  (isPlaying (vars w) = true →
   elapsedTime (vars (tick t w)) = (elapsedTime (vars w) + 1)%Z ∧
   progressBar (env (tick t w)) =
     Binary64.percent (elapsedTime (vars w) + 1) (songDuration (vars w))
       :: progressBar (env w)) ∧
  (isPlaying (vars w) = false → tick t w = w) ∧
  hd_error (progressBar (env (run boot Traces.fifty_of_200))) = Some 25%float ∧
  elapsedTime (vars (run boot Traces.fifty_of_200)) = 50%Z.
Proof.
  intros Ht Hd. split_and!.
  - intros Hp. by destruct (tick_playing t w Ht Hp Hd) as (He & Hb & _ & _).
  - intros Hp. apply tick_idle. by left.
  - by vm_compute.
  - by vm_compute.
Qed.

Lemma tick_advances_unclamped_witness :
  0%nat ∈ intervals (env (run boot (take 1 Traces.fifty_of_200))) ∧
  Binary64.positive (songDuration (vars (run boot (take 1 Traces.fifty_of_200))))
    = true ∧
  elapsedTime (vars (tick 0 (run boot (take 1 Traces.fifty_of_200)))) = 1%Z.
Proof.
  assert (Ht : 0%nat ∈ intervals (env (run boot (take 1 Traces.fifty_of_200))))
    by (vm_compute; apply list_elem_of_here).
  assert (Hd : Binary64.positive
                 (songDuration (vars (run boot (take 1 Traces.fifty_of_200)))) = true)
    by reflexivity.
  split_and!; [exact Ht|exact Hd|].
  exact (proj1 (proj1 (tick_advances_unclamped _ 0%nat Ht Hd) eq_refl)).
Defined.

(** C3 as stated fails: on a song of 9.4 seconds the tenth firing passes
    106.38297872340425 to the gauge, not the clamped value of the
    specification. *)
Lemma percent_exceeds_100 :
  hd_error (progressBar (env (run boot Traces.ten_of_9_4))) =
    Some 0x1.a9882b9310572p+6%float ∧
  elapsedTime (vars (run boot Traces.ten_of_9_4)) = 10%Z ∧
  (100 <? 0x1.a9882b9310572p+6)%float = true ∧
  Binary64.spec_percent 10 Traces.nine_point_four = 100%float.
Proof. by vm_compute. Qed.

(** C4, as the code has it.  A directory entry whose base name is not
    [__proto__] is stored in [musicdata.children], the object that also
    holds the artists, as the own property of its base name, with that
    name and no children, in place of whatever was at that key; the tree
    that is built still has this node when no later entry resolves to an
    artist of that name.  A list without hazardous names is built. *)
Theorem directory_entry_top_level (l1 l2 : list item) (i : item) (n : string) :
  directory_entry i = true →
  name i = Some n →
  Path.basename n ≠ "__proto__" →
  existsb (track_under (Path.basename n)) l2 = false →
  (∀ T, visit T i = Some (add_directory n T) ∧
        ∀ k, own (add_directory n T) k =
             if decide (Path.basename n = k)
             then Some (Obj (new_directory (Path.basename n)))
             else own T k) ∧
  (∀ M, fetchMusic (l1 ++ i :: l2) = Some M →
        lookup_artist M (Path.basename n) = Some (new_directory (Path.basename n)) ∧
        ∀ al, lookup_album M (Path.basename n) al = None) ∧
  (existsb hazard (l1 ++ i :: l2) = false →
   is_Some (fetchMusic (l1 ++ i :: l2))).
Proof.
  intros Hi Hn Hp Hu. split_and!; [| |apply fetchMusic_hazard].
  { intros T. split; [by apply visit_directory_entry|].
    intros k. unfold add_directory, put.
    destruct (String.eqb_spec (Path.basename n) "__proto__"); [done|].
    apply own_set_own. }
  intros M HM. destruct (fetchMusic_shape _ _ HM) as (pc & ->).
  assert (Hk : shape_of (l1 ++ i :: l2) !! Path.basename n =
               Some (mkArtistShape true ∅)).
  { rewrite shape_of_split. apply shape_run_directory; [done|].
    rewrite (shape_visit_directory_entry _ _ n) by done.
    apply lookup_insert_eq. }
  split.
  - by rewrite lookup_artist_embed, Hk, new_directory_embed.
  - intros al. rewrite lookup_album_embed, Hk. simpl. by rewrite lookup_empty.
Qed.

Lemma directory_entry_top_level_witness :
  ∃ M, fetchMusic [Examples.song "a.mp3" "X" "Y" "Z"; Examples.dir "/srv/Live/"]
         = Some M ∧
       lookup_artist M "Live" = Some (new_directory "Live").
Proof.
  eexists. split; [reflexivity|].
  exact (proj1 (proj1 (proj2 (directory_entry_top_level
                                [Examples.song "a.mp3" "X" "Y" "Z"] []
                                (Examples.dir "/srv/Live/") "/srv/Live/"
                                eq_refl eq_refl ltac:(discriminate) eq_refl))
                  _ eq_refl)).
Defined.

(** C4 as stated fails: the directory node shares the object of the
    artists.  A track of an artist with the directory's name is filed
    under the directory node, and a directory entry replaces the artist
    node that has its name. *)
Lemma directory_merges_with_artist :
  (∃ M, fetchMusic [Examples.dir "X"; Examples.song "a.mp3" "X" "Y" "Z"] = Some M ∧
        lookup_artist M "X" =
          Some (embed_artist "X" (mkArtistShape true {["Y" := {["Z" := "a.mp3"]}]})) ∧
        lookup_track M "X" "Y" "Z" = Some (new_track "Z" "a.mp3")) ∧
  (∃ M0 M1, fetchMusic [Examples.song "a.mp3" "X" "Y" "Z"] = Some M0 ∧
            lookup_track M0 "X" "Y" "Z" = Some (new_track "Z" "a.mp3") ∧
            fetchMusic [Examples.song "a.mp3" "X" "Y" "Z"; Examples.dir "X"] = Some M1 ∧
            lookup_artist M1 "X" = Some (new_directory "X") ∧
            lookup_track M1 "X" "Y" "Z" = None).
Proof.
  split.
  - exists (musicdata (embed_tree None
              (shape_of [Examples.dir "X"; Examples.song "a.mp3" "X" "Y" "Z"]))).
    split; [by rewrite fetchMusic_exact|].
    rewrite lookup_artist_embed, lookup_track_embed. split; by vm_compute.
  - exists (musicdata (embed_tree None
              (shape_of [Examples.song "a.mp3" "X" "Y" "Z"]))),
           (musicdata (embed_tree None
              (shape_of [Examples.song "a.mp3" "X" "Y" "Z"; Examples.dir "X"]))).
    split; [by rewrite fetchMusic_exact|].
    split; [rewrite lookup_track_embed; by vm_compute|].
    split; [by rewrite fetchMusic_exact|].
    rewrite lookup_artist_embed, lookup_track_embed, new_directory_embed.
    split; by vm_compute.
Qed.

(** C5 on the code.  When the child returned by [spawn] reports its
    failure through [error], the record box shows "Error playing: <name>",
    but [isPlaying] stays true, the timer of the song stays alive and
    [currentAudio] holds the handle of the child, whereas the [exit]
    listener of the same child would have set [isPlaying] to false and
    cancelled that timer.  When [spawn] throws, the record box shows
    "Error fetching: <name>" and the five variables are unchanged. *)
Theorem spawn_failure_notifies (w : world) (songPath : string) (pr : probe)
    (code : option Z) :
  recordbox (env (on_error (length (spawned (env w)))
                    (playSong songPath Spawned pr w))) =
    ("Error playing: " ++ Path.basename songPath)
      :: recordbox (env (playSong songPath Spawned pr w)) ∧
  isPlaying (vars (on_error (length (spawned (env w)))
                     (playSong songPath Spawned pr w))) = true ∧
  (next_interval (env w) ∈
     intervals (env (on_error (length (spawned (env w)))
                       (playSong songPath Spawned pr w)))) ∧
  currentAudio (vars (on_error (length (spawned (env w)))
                        (playSong songPath Spawned pr w))) =
    Some (length (spawned (env w))) ∧
  isPlaying (vars (on_exit (length (spawned (env w))) code
                     (playSong songPath Spawned pr w))) = false ∧
  (next_interval (env w) ∉
     intervals (env (on_exit (length (spawned (env w))) code
                       (playSong songPath Spawned pr w)))) ∧
  recordbox (env (playSong songPath SpawnThrows pr w)) =
    ("Error fetching: " ++ Path.basename songPath) :: recordbox (env w) ∧
  vars (playSong songPath SpawnThrows pr w) = vars w.
Proof.
  assert (Hs : spawned (env (playSong songPath Spawned pr w))
                 !! length (spawned (env w)) = Some songPath).
  { by rewrite spawned_play, list_lookup_middle. }
  rewrite (on_error_spawned _ songPath) by done.
  destruct (play_throws songPath pr w) as [Hr Hv].
  unfold on_exit. rewrite Hs.
  split_and!; [done| | | | | |done|done].
  - by rewrite play_spawned.
  - rewrite play_spawned. simpl. apply list_elem_of_here.
  - by rewrite play_spawned.
  - rewrite vars_clearInterval. by case_bool_decide.
  - apply intervals_clearInterval. rewrite play_spawned. by case_bool_decide.
Qed.

(** The trace of a failed start: the program still counts as playing and
    still holds a handle, and the timer goes on counting; and when [spawn]
    throws, the message is not "Error playing: <name>". *)
Lemma failed_start_keeps_session :
  isPlaying (vars (run boot Traces.failed_start)) = true ∧
  currentAudio (vars (run boot Traces.failed_start)) = Some 0%nat ∧
  intervals (env (run boot Traces.failed_start)) = [0%nat] ∧
  elapsedTime (vars (run boot (Traces.failed_start ++ [Tick 0; Tick 0]))) = 2%Z ∧
  hd_error (recordbox (env (run boot Traces.failed_start))) =
    Some "Error playing: a.mp3" ∧
  recordbox (env (run boot Traces.spawn_throws)) = ["Error fetching: a.mp3"].
Proof. by vm_compute. Qed.

(** C6, as the code has it.  Whatever the exit code or signal, the [exit]
    listener sets [isPlaying] to false and cancels the timer whose handle
    is in [progressBarInterval], so that no timer is left when that one
    was the only one alive; [currentAudio] keeps the handle of the child;
    "Playback ended: <name>" is shown unless the code is 0. *)
Theorem exit_stops_progress (w : world) (child : nat) (songPath : string)
    (code : option Z) :
  spawned (env w) !! child = Some songPath →
  isPlaying (vars (on_exit child code w)) = false ∧
  (∀ t, progressBarInterval (vars w) = Some t →
        t ∉ intervals (env (on_exit child code w))) ∧
  ((∀ t, t ∈ intervals (env w) → progressBarInterval (vars w) = Some t) →
   intervals (env (on_exit child code w)) = []) ∧
  currentAudio (vars (on_exit child code w)) = currentAudio (vars w) ∧
  recordbox (env (on_exit child code w)) =
    if bool_decide (code = Some 0%Z) then recordbox (env w)
    else ("Playback ended: " ++ Path.basename songPath) :: recordbox (env w).
Proof.
  intros Hc. unfold on_exit. rewrite Hc.
  split_and!.
  - by rewrite vars_clearInterval.
  - intros t Ht. apply intervals_clearInterval.
    by case_bool_decide.
  - intros Hall. apply intervals_clearInterval_only.
    by case_bool_decide.
  - rewrite vars_clearInterval. by case_bool_decide.
  - rewrite recordbox_clearInterval. by case_bool_decide.
Qed.

Lemma exit_stops_progress_witness :
  spawned (env (run boot (take 1 Traces.clean_exit))) !! 0%nat =
    Some "/music/a.mp3" ∧
  isPlaying (vars (on_exit 0 None (run boot (take 1 Traces.clean_exit)))) = false.
Proof.
  split; [reflexivity|].
  exact (proj1 (exit_stops_progress (run boot (take 1 Traces.clean_exit))
                  0%nat "/music/a.mp3" None eq_refl)).
Defined.

(** C6 as stated fails: after the player has exited with code 0 the handle
    of the child is still in [currentAudio]. *)
Lemma exit_keeps_handle :
  currentAudio (vars (run boot Traces.clean_exit)) = Some 0%nat ∧
  isPlaying (vars (run boot Traces.clean_exit)) = false ∧
  intervals (env (run boot Traces.clean_exit)) = [].
Proof. by vm_compute. Qed.

(** C7 on the code: [playSong] adds a timer and cancels none, so choosing a
    second song while the first one plays leaves two timers alive; the
    [exit] of the first child then cancels the timer of the second song
    and leaves the first one alive. *)
Theorem play_keeps_old_timer (w : world) (songPath : string) (pr : probe) :
  intervals (env (playSong songPath Spawned pr w)) =
    next_interval (env w) :: intervals (env w) ∧
  intervals (env (run boot Traces.two_plays)) = [1%nat; 0%nat] ∧
  intervals (env (run boot (Traces.two_plays ++ [Exit 0 None]))) = [0%nat] ∧
  progressBarInterval (vars (run boot (Traces.two_plays ++ [Exit 0 None]))) =
    Some 1%nat.
Proof. split_and!; [apply intervals_play|by vm_compute..]. Qed.

(** C8.  While [songDuration] is 0 no event other than a new [Play]
    changes [elapsedTime] or the gauge, and a firing of a timer changes
    nothing at all, however many there are; a probe whose output does not
    parse, or that throws, gives the duration 0. *)
Theorem zero_duration_never_ticks (w : world) (es : list event) (ts : list nat) :
  Binary64.value (songDuration (vars w)) = Binary64.Finite 0 →
  existsb is_play es = false →
  run w (Tick <$> ts) = w ∧
  elapsedTime (vars (run w es)) = elapsedTime (vars w) ∧
  progressBar (env (run w es)) = progressBar (env w) ∧
  (∀ songPath w0 pr,
     pr = ProbeThrows ∨ (∃ d, pr = ProbeParsed d ∧ Binary64.isNaN d = true) →
     songDuration (vars (playSong songPath Spawned pr w0)) = 0%float ∧
     Binary64.value (songDuration (vars (playSong songPath Spawned pr w0))) =
       Binary64.Finite 0).
Proof.
  intros Hd%positive_zero Hes. split_and!.
  - apply run_ticks_idle. by right.
  - by apply run_zero_duration.
  - by apply run_zero_duration.
  - intros songPath w0 pr Hpr. rewrite vars_play_spawned. simpl.
    destruct Hpr as [-> | (d & -> & Hn)]; simpl; [done|]. by rewrite Hn.
Qed.

Lemma zero_duration_never_ticks_witness :
  Binary64.value
    (songDuration (vars (run boot [Play "/music/a.mp3" Spawned (ProbeParsed nan)])))
    = Binary64.Finite 0 ∧
  run (run boot [Play "/music/a.mp3" Spawned (ProbeParsed nan)])
      (Tick <$> [0%nat; 0%nat; 0%nat]) =
  run boot [Play "/music/a.mp3" Spawned (ProbeParsed nan)].
Proof.
  split; [reflexivity|].
  exact (proj1 (zero_duration_never_ticks
                  (run boot [Play "/music/a.mp3" Spawned (ProbeParsed nan)])
                  [Toggle; Tick 0; Toggle] [0%nat; 0%nat; 0%nat]
                  eq_refl eq_refl)).
Defined.

(** C9.  Without a child, any number of calls of [togglePlayPause] leaves
    the five variables as they are, sends no signal, touches no timer, and
    shows "No audio playing" once per call. *)
Theorem toggle_without_audio (n : nat) (w : world) :
  currentAudio (vars w) = None →
  vars (Nat.iter n togglePlayPause w) = vars w ∧
  recordbox (env (Nat.iter n togglePlayPause w)) =
    (repeat "No audio playing" n ++ recordbox (env w))%list ∧
  signals (env (Nat.iter n togglePlayPause w)) = signals (env w) ∧
  intervals (env (Nat.iter n togglePlayPause w)) = intervals (env w) ∧
  progressBar (env (Nat.iter n togglePlayPause w)) = progressBar (env w) ∧
  spawned (env (Nat.iter n togglePlayPause w)) = spawned (env w).
Proof.
  intros Hw. induction n as [|n (Hv & Hr & Hs & Hi & Hp & Hc)]; [done|].
  simpl. rewrite toggle_no_audio by (by rewrite Hv).
  simpl. by rewrite Hv, Hr, Hs, Hi, Hp, Hc.
Qed.

Lemma toggle_without_audio_witness :
  currentAudio (vars boot) = None ∧
  recordbox (env (Nat.iter 3 togglePlayPause boot)) =
    ["No audio playing"; "No audio playing"; "No audio playing"].
Proof.
  split; [reflexivity|].
  exact (proj1 (proj2 (toggle_without_audio 3 boot eq_refl))).
Defined.


(** * Further properties of the code *)

(** ** What the loop keeps true of the own part *)

Section TreeInvariants.

Implicit Types (m : tree_shape) (s : tree_shape * bool).

Lemma populated_mono (l l' : list item) m :
  populated l m → populated (l ++ l') m.
Proof.
  intros Hm a n Hn. destruct (Hm a n Hn) as [H1 H2]. split; [done|].
  intros al A HA. destruct (H2 al A HA) as [H3 H4]. split; [|done].
  intros HE. destruct (H3 HE) as (i & f & md & Hi & Hrest).
  exists i, f, md. split; [|done]. apply elem_of_app. by left.
Qed.

Lemma populated_track_step (l : list item) (i : item) (f : string)
    (md : Metadata) m :
  track_of i = Some (f, md) →
  populated l m → populated (l ++ [i]) (track_step f md m).
Proof.
  intros Hi Hm. apply (populated_mono _ [i]) in Hm.
  intros a n. unfold track_step.
  set (ra := resolved_artist md). set (ral := resolved_album md).
  set (rt := resolved_title f md).
  rewrite lookup_insert. case_decide as Ha; [|by apply Hm].
  subst a. intros [= <-]. simpl. split.
  { intros E. by apply insert_non_empty in E. }
  intros al A. rewrite lookup_insert. case_decide as Hal.
  - subst al. intros [= <-].
    set (A := default ∅ (albums (default fresh_artist (m !! ra)) !! ral)).
    assert (HA : ∀ t x, A !! t = Some x → x ≠ "").
    { intros t x. unfold A.
      destruct (m !! ra) as [n0|] eqn:E0; simpl; [|by rewrite lookup_empty].
      destruct (albums n0 !! ral) as [A0|] eqn:E1; simpl; [|by rewrite lookup_empty].
      apply (proj2 (Hm ra n0 E0) ral A0 E1). }
    destruct (A !! rt) as [x|] eqn:Ex.
    + rewrite bool_decide_eq_true_2 by eauto. simpl. split; [|done].
      intros ->. by rewrite lookup_empty in Ex.
    + rewrite bool_decide_eq_false_2 by (by intros [? ?]). simpl.
      destruct (inherited rt) eqn:Hrt.
      * split; [|done]. intros _. exists i, f, md.
        split_and!; [|done..]. apply elem_of_app. right. apply list_elem_of_here.
      * split; [intros E; by apply insert_non_empty in E|].
        intros t x. rewrite lookup_insert. case_decide; [|by apply HA].
        intros [= <-]. by apply track_of_truthy in Hi as (_ & _ & ?).
  - destruct (m !! ra) as [n0|] eqn:E0; simpl; [|by rewrite lookup_empty].
    apply (proj2 (Hm ra n0 E0)).
Qed.

Lemma populated_visit (l : list item) s (i : item) :
  populated l s.1 → populated (l ++ [i]) (shape_visit s i).1.
Proof.
  intros Hm. unfold shape_visit.
  destruct (track_of i) as [[f md]|] eqn:Hi.
  - destruct (reaches_own _ _ _); [|by apply populated_mono].
    by apply populated_track_step.
  - destruct (is_directory i); [|by apply populated_mono].
    destruct (name i) as [n|]; [|by apply populated_mono].
    destruct (String.eqb _ _); [by apply populated_mono|]. simpl.
    apply (populated_mono _ [i]) in Hm.
    intros a n0. unfold directory_step. rewrite lookup_insert.
    case_decide; [|by apply Hm]. intros [= <-]. simpl. split; [done|].
    intros al A. by rewrite lookup_empty.
Qed.

Lemma populated_run (l : list item) : ∀ (l0 : list item) s,
  populated l0 s.1 → populated (l0 ++ l) (shape_run l s).1.
Proof.
  induction l as [|i l IH]; intros l0 s Hs.
  - by rewrite app_nil_r.
  - rewrite shape_run_cons, cons_middle, app_assoc.
    apply IH. by apply populated_visit.
Qed.

Lemma populated_shape_of (data : list item) : populated data (shape_of data).
Proof.
  apply (populated_run data [] (∅, false)). intros a n. simpl.
  by rewrite lookup_empty.
Qed.

Lemma plain_keys_visit s (i : item) :
  plain_keys s.1 → plain_keys (shape_visit s i).1.
Proof.
  intros Hm. unfold shape_visit, reaches_own.
  destruct (track_of i) as [[f md]|] eqn:Hi.
  - destruct (own_resolves _ _ _); [|done]. simpl.
    set (ra := resolved_artist md). set (ral := resolved_album md).
    set (rt := resolved_title f md).
    destruct (_ || _) eqn:Hc; [|done]. simpl.
    intros a n. unfold track_step. fold ra ral rt.
    rewrite lookup_insert. case_decide as Ha; [|by apply Hm].
    subst a. intros [= <-]. simpl.
    intros al A. rewrite lookup_insert. case_decide as Hal.
    + subst al. intros [= <-].
      set (A := default ∅ (albums (default fresh_artist (s.1 !! ra)) !! ral)).
      assert (HA : ∀ t x, A !! t = Some x → inherited t = false).
      { intros t x. unfold A.
        destruct (s.1 !! ra) as [n0|] eqn:E0; simpl; [|by rewrite lookup_empty].
        destruct (albums n0 !! ral) as [A0|] eqn:E1; simpl;
          [|by rewrite lookup_empty].
        apply (Hm ra n0 E0 ral A0 E1). }
      split.
      * apply orb_true_iff in Hc as [Hc|Hc]; [|by apply negb_true_iff].
        apply bool_decide_eq_true in Hc as [A0 HA0].
        destruct (s.1 !! ra) as [n0|] eqn:E0; simpl in HA0;
          [|by rewrite lookup_empty in HA0].
        by apply (Hm ra n0 E0 ral A0 HA0).
      * intros t x. destruct (bool_decide _ || inherited rt) eqn:Hk; [by apply HA|].
        rewrite lookup_insert. case_decide; [|by apply HA].
        intros _. subst t. by apply orb_false_iff in Hk as [_ ?].
    + destruct (s.1 !! ra) as [n0|] eqn:E0; simpl; [|by rewrite lookup_empty].
      by apply (Hm ra n0 E0).
  - destruct (is_directory i); [|done].
    destruct (name i) as [n|]; [|done].
    destruct (String.eqb _ _); [done|]. simpl.
    intros a n0. unfold directory_step. rewrite lookup_insert.
    case_decide; [|by apply Hm]. intros [= <-]. simpl.
    intros al A. by rewrite lookup_empty.
Qed.

Lemma plain_keys_run (l : list item) : ∀ s,
  plain_keys s.1 → plain_keys (shape_run l s).1.
Proof.
  induction l as [|i l IH]; intros s Hs; [done|].
  rewrite shape_run_cons. apply IH. by apply plain_keys_visit.
Qed.

(** Top-level keys come from the entries and stay. *)
Lemma shape_visit_keys s (i : item) (k : string) :
  is_Some ((shape_visit s i).1 !! k) →
  is_Some (s.1 !! k) ∨ top_key i = Some k.
Proof.
  unfold shape_visit, top_key.
  destruct (track_of i) as [[f md]|].
  - destruct (reaches_own _ _ _); [|by left]. simpl. unfold track_step.
    rewrite lookup_insert_is_Some. intros [->|[_ ?]]; [by right|by left].
  - destruct (is_directory i); [|by left].
    destruct (name i) as [n|]; [|by left].
    destruct (String.eqb _ _); [by left|]. simpl. unfold directory_step.
    rewrite lookup_insert_is_Some. intros [->|[_ ?]]; [by right|by left].
Qed.

Lemma shape_run_keys (l : list item) : ∀ s (k : string),
  is_Some ((shape_run l s).1 !! k) →
  is_Some (s.1 !! k) ∨ ∃ i, i ∈ l ∧ top_key i = Some k.
Proof.
  induction l as [|i l IH]; intros s k Hk; [by left|].
  rewrite shape_run_cons in Hk.
  destruct (IH _ _ Hk) as [H1|(j & Hj & Ht)].
  - destruct (shape_visit_keys _ _ _ H1) as [?|?]; [by left|].
    right. exists i. split; [apply list_elem_of_here|done].
  - right. exists j. split; [by apply list_elem_of_further|done].
Qed.

Lemma shape_of_keys (data : list item) (k : string) :
  is_Some (shape_of data !! k) → ∃ i, i ∈ data ∧ top_key i = Some k.
Proof.
  intros Hk. destruct (shape_run_keys _ _ _ Hk) as [H0|?]; [|done].
  simpl in H0. rewrite lookup_empty in H0. by destruct H0.
Qed.

(** A top-level key that [Object.prototype] defines is made by a
    directory entry only. *)
Lemma shape_visit_inherited_key s (i : item) (k : string) :
  inherited k = true →
  is_Some ((shape_visit s i).1 !! k) →
  is_Some (s.1 !! k) ∨ directory_named k i = true.
Proof.
  intros Hk. unfold shape_visit, directory_named, directory_entry.
  destruct (track_of i) as [[f md]|].
  - destruct (reaches_own _ _ _) eqn:Hr; [|by left]. simpl. unfold track_step.
    rewrite lookup_insert_is_Some. intros [E|[_ ?]]; [|by left]. left.
    unfold reaches_own, own_resolves in Hr. rewrite E, Hk in Hr. simpl in Hr.
    rewrite orb_false_r in Hr. apply andb_true_iff in Hr as [Hr _].
    by apply bool_decide_eq_true in Hr.
  - destruct (is_directory i); [|by left].
    destruct (name i) as [n|]; [|by left]. simpl.
    destruct (String.eqb _ _); [by left|]. simpl. unfold directory_step.
    rewrite lookup_insert_is_Some. intros [E|[_ ?]]; [|by left].
    right. by apply bool_decide_eq_true.
Qed.

Lemma shape_run_inherited_key (l : list item) : ∀ s (k : string),
  inherited k = true →
  is_Some ((shape_run l s).1 !! k) →
  is_Some (s.1 !! k) ∨ ∃ i, i ∈ l ∧ directory_named k i = true.
Proof.
  induction l as [|i l IH]; intros s k Hk Hs; [by left|].
  rewrite shape_run_cons in Hs.
  destruct (IH _ _ Hk Hs) as [H1|(j & Hj & Ht)].
  - destruct (shape_visit_inherited_key _ _ _ Hk H1) as [?|?]; [by left|].
    right. exists i. split; [apply list_elem_of_here|done].
  - right. exists j. split; [by apply list_elem_of_further|done].
Qed.

Lemma shape_visit_keeps_key s (i : item) (k : string) :
  is_Some (s.1 !! k) → is_Some ((shape_visit s i).1 !! k).
Proof.
  intros Hk. unfold shape_visit.
  destruct (track_of i) as [[f md]|].
  - destruct (reaches_own _ _ _); [|done]. simpl. unfold track_step.
    rewrite lookup_insert_is_Some.
    destruct (decide (resolved_artist md = k)); eauto.
  - destruct (is_directory i); [|done].
    destruct (name i) as [n|]; [|done].
    destruct (String.eqb _ _); [done|]. simpl. unfold directory_step.
    rewrite lookup_insert_is_Some.
    destruct (decide (Path.basename n = k)); eauto.
Qed.

(** While the prototype is [Object.prototype], an entry that does not
    throw leaves its key in the tree. *)
Lemma shape_visit_makes_key m (i : item) (k : string) :
  shape_throws m i = false →
  directory_named "__proto__" i = false →
  top_key i = Some k →
  is_Some ((shape_visit (m, false) i).1 !! k).
Proof.
  unfold shape_throws, shape_visit, top_key, directory_named, directory_entry,
    nameless.
  destruct (track_of i) as [[f md]|]; simpl.
  - intros ->%negb_false_iff _ [= <-]. simpl. unfold track_step.
    rewrite lookup_insert_eq. eauto.
  - destruct (is_directory i); [|done]. simpl.
    destruct (name i) as [n|]; [|done]. simpl.
    intros _ Hp%bool_decide_eq_false [= <-].
    destruct (String.eqb_spec (Path.basename n) "__proto__"); [done|]. simpl.
    unfold directory_step. rewrite lookup_insert_eq. eauto.
Qed.

Lemma shape_forEach_keys (l : list item) : ∀ m m' (k : string),
  shape_forEach l m = Some m' →
  existsb (directory_named "__proto__") l = false →
  is_Some (m !! k) ∨ (∃ i, i ∈ l ∧ top_key i = Some k) →
  is_Some (m' !! k).
Proof.
  induction l as [|i l IH]; intros m m' k Hf Hd Hk; simpl in Hf, Hd.
  - injection Hf as <-. destruct Hk as [?|(i & Hi & _)]; [done|].
    by apply not_elem_of_nil in Hi.
  - apply orb_false_iff in Hd as [Hd1 Hd2].
    destruct (shape_throws m i) eqn:Ht; [done|].
    apply (IH _ _ _ Hf Hd2).
    destruct Hk as [Hk|(j & [->|Hj]%elem_of_cons & Hjk)].
    + left. by apply (shape_visit_keeps_key (m, false)).
    + left. by apply shape_visit_makes_key.
    + right. eauto.
Qed.

(** Entries that take neither branch do nothing. *)
Lemma forEach_filter_handled (data : list item) : ∀ T : object,
  forEach (filter (λ i, handled i) data) T = forEach data T.
Proof.
  induction data as [|i data IH]; intros T; [done|].
  rewrite filter_cons. destruct (decide (handled i)) as [Hh|Hh]; simpl.
  - destruct (visit T i); [apply IH|done].
  - rewrite IH. unfold visit, handled in *.
    destruct (track_of i) as [[f md]|]; [by destruct Hh|].
    by destruct (is_directory i); [destruct Hh|].
Qed.

End TreeInvariants.

(** ** Properties of the built tree *)

(** X1.  In a tree built by [fetchMusic] every node is stored under the key
    that is its [name], on each of the three levels. *)
Theorem built_names_are_keys (data : list item) (M : object) :
  fetchMusic data = Some M →
  (∀ a n, lookup_artist M a = Some n → name_of n = Some a) ∧
  (∀ a al n, lookup_album M a al = Some n → name_of n = Some al) ∧
  (∀ a al t n, lookup_track M a al t = Some n → name_of n = Some t).
Proof.
  intros HM. destruct (fetchMusic_shape _ _ HM) as (pc & ->). split_and!.
  - intros a n. rewrite lookup_artist_embed.
    destruct (_ !! a); simpl; [|done]. intros [= <-]. apply name_of_embed_artist.
  - intros a al n. rewrite lookup_album_embed.
    destruct (_ !! a) as [n1|]; simpl; [|done].
    destruct (_ !! al); simpl; [|done]. by intros [= <-].
  - intros a al t n. rewrite lookup_track_embed.
    destruct (shape_track _ _ _ _); simpl; [|done]. by intros [= <-].
Qed.

Lemma built_names_are_keys_witness :
  ∃ M, fetchMusic [Examples.song "a.mp3" "X" "Y" "Z"; Examples.dir "Live"] = Some M ∧
       ∀ a n, lookup_artist M a = Some n → name_of n = Some a.
Proof.
  eexists. split; [reflexivity|].
  exact (proj1 (built_names_are_keys
                  [Examples.song "a.mp3" "X" "Y" "Z"; Examples.dir "Live"] _ eq_refl)).
Defined.

(** X2.  Every track of a built tree was put there by an entry of the
    input: the node is the literal [{ name: title, file: item.file }] of an
    entry with a file and metadata whose defaulted artist, album and title
    are the path of the track. *)
Theorem built_tracks_come_from_entries (data : list item) (M : object)
    (a al t : string) (n : object) :
  fetchMusic data = Some M →
  lookup_track M a al t = Some n →
  ∃ i md f, n = new_track t f ∧ file_of n = Some f ∧
            i ∈ data ∧ file i = Some f ∧ metadata i = Some md ∧
            resolved_artist md = a ∧ resolved_album md = al ∧
            resolved_title f md = t.
Proof.
  intros HM Hn. destruct (fetchMusic_shape _ _ HM) as (pc & ->).
  rewrite lookup_track_embed in Hn.
  destruct (shape_track _ _ _ _) as [f|] eqn:E; simpl in Hn; [|done].
  injection Hn as <-.
  destruct (shape_track_run_inv _ _ _ _ _ _ E)
    as [H0|(_ & i & md & Hi & Hw & Hi')].
  { by rewrite shape_track_empty in H0. }
  apply bool_decide_eq_true in Hw. unfold track_key in Hw. rewrite Hi' in Hw.
  injection Hw as <- <- <-.
  apply track_of_truthy in Hi' as (Hf & Hmd & _).
  exists i, md, f. by split_and!.
Qed.

Lemma built_tracks_come_from_entries_witness :
  ∃ i md f, i ∈ [Examples.song "a.mp3" "X" "Y" ""] ∧ file i = Some f ∧
            metadata i = Some md ∧ resolved_title f md = "a.mp3".
Proof.
  destruct (built_tracks_come_from_entries
              [Examples.song "a.mp3" "X" "Y" ""] _ "X" "Y" "a.mp3"
              (new_track "a.mp3" "a.mp3") eq_refl eq_refl)
    as (i & md & f & _ & _ & Hi & Hf & Hmd & _ & _ & Ht).
  exists i, md, f. by split_and!.
Defined.

(** X4.  Entries that are neither track entries nor of type "directory"
    have no effect: removing them from the input gives the same result. *)
Theorem unhandled_entries_are_skipped (data : list item) :
  fetchMusic (filter (λ i, handled i) data) = fetchMusic data.
Proof. unfold fetchMusic. by rewrite forEach_filter_handled. Qed.

(** X5.  The top-level keys of a built tree come from the entries: each
    is the defaulted artist of a track entry or the base name of a
    directory entry, and [__proto__] is never one of them.  When no
    directory entry is called [__proto__], every entry has left its key. *)
Theorem built_top_level_keys (data : list item) (M : object) :
  fetchMusic data = Some M →
  lookup_artist M "__proto__" = None ∧
  (∀ k, is_Some (lookup_artist M k) → ∃ i, i ∈ data ∧ top_key i = Some k) ∧
  (existsb (directory_named "__proto__") data = false →
   ∀ k i, i ∈ data → top_key i = Some k → is_Some (lookup_artist M k)).
Proof.
  intros HM. split_and!.
  - destruct (fetchMusic_shape _ _ HM) as (pc & ->).
    rewrite lookup_artist_embed. unfold shape_of.
    by rewrite (shape_run_proto data (∅, false)) by apply lookup_empty.
  - destruct (fetchMusic_shape _ _ HM) as (pc & ->).
    intros k. rewrite lookup_artist_embed, fmap_is_Some.
    apply shape_of_keys.
  - intros Hd k i Hi Hk. rewrite fetchMusic_exact in HM by done.
    destruct (shape_forEach data ∅) as [m|] eqn:Hf; [|done].
    injection HM as <-. rewrite lookup_artist_embed, fmap_is_Some.
    apply (shape_forEach_keys _ _ _ _ Hf Hd). right. eauto.
Qed.

Lemma built_top_level_keys_witness :
  ∃ M, fetchMusic [Examples.song "a.mp3" "" "Y" "Z"; Examples.dir "/srv/Live/";
                   Examples.dir "__proto__"] = Some M ∧
       lookup_artist M "__proto__" = None.
Proof.
  eexists. split; [reflexivity|].
  exact (proj1 (built_top_level_keys
                  [Examples.song "a.mp3" "" "Y" "Z"; Examples.dir "/srv/Live/";
                   Examples.dir "__proto__"] _ eq_refl)).
Defined.

(** X6.  In a built tree no track has an empty file; an album without
    tracks comes from an entry whose title is a property of
    [Object.prototype], for which line 212 writes nothing; and a top-level
    node without albums is a directory node [{ name, children: {} }]. *)
Theorem built_tree_is_populated (data : list item) (M : object) :
  fetchMusic data = Some M →
  (∀ a al t n, lookup_track M a al t = Some n →
     ∃ f, file_of n = Some f ∧ f ≠ "") ∧
  (∀ a al n c, lookup_album M a al = Some n → children n = Some c →
     keys_length c = 0 →
     ∃ i f md, i ∈ data ∧ track_of i = Some (f, md) ∧
               resolved_artist md = a ∧ resolved_album md = al ∧
               inherited (resolved_title f md) = true) ∧
  (∀ a n c, lookup_artist M a = Some n → children n = Some c →
     keys_length c = 0 → n = new_directory a).
Proof.
  intros HM. destruct (fetchMusic_shape _ _ HM) as (pc & ->).
  pose proof (populated_shape_of data) as Hpop. split_and!.
  - intros a al t n. rewrite lookup_track_embed. unfold shape_track.
    destruct (shape_of data !! a) as [n1|] eqn:E1; simpl; [|done].
    destruct (albums n1 !! al) as [A|] eqn:E2; simpl; [|done].
    destruct (A !! t) as [f|] eqn:E3; simpl; [|done].
    intros [= <-]. exists f. split; [done|].
    by apply (proj2 (Hpop a n1 E1) al A E2) in E3.
  - intros a al n c. rewrite lookup_album_embed.
    destruct (shape_of data !! a) as [n1|] eqn:E1; simpl; [|done].
    destruct (albums n1 !! al) as [A|] eqn:E2; simpl; [|done].
    intros [= <-] [= <-]. rewrite keys_length_container.
    intros HA%map_size_empty_iff.
    destruct (Hpop a n1 E1) as [_ H2]. by apply (H2 al A E2).
  - intros a n c. rewrite lookup_artist_embed.
    destruct (shape_of data !! a) as [n1|] eqn:E1; simpl; [|done].
    intros [= <-] [= <-]. rewrite keys_length_container.
    intros HA%map_size_empty_iff.
    destruct (Hpop a n1 E1) as [H1 _]. rewrite (H1 HA).
    symmetry. apply new_directory_embed.
Qed.

Lemma built_tree_is_populated_witness :
  ∃ M n c, fetchMusic [Examples.song "a.mp3" "X" "Y" "toString"] = Some M ∧
           lookup_album M "X" "Y" = Some n ∧ children n = Some c ∧
           keys_length c = 0 ∧
           ∃ i f md, i ∈ [Examples.song "a.mp3" "X" "Y" "toString"] ∧
                     track_of i = Some (f, md) ∧
                     inherited (resolved_title f md) = true.
Proof.
  eexists _, _, _. split; [reflexivity|].
  split; [reflexivity|]. split; [reflexivity|]. split; [reflexivity|].
  destruct (proj1 (proj2 (built_tree_is_populated
                            [Examples.song "a.mp3" "X" "Y" "toString"] _ eq_refl))
              "X" "Y" _ _ eq_refl eq_refl eq_refl)
    as (i & f & md & Hi & Ht & _ & _ & Hh).
  exists i, f, md. by split_and!.
Defined.

(** X7.  Entries appended to the input never change or remove a track that
    is in the tree, unless one of them is a directory entry whose base
    name is the artist of the track. *)
Theorem appended_entries_keep_tracks (data more : list item) (M M' : object)
    (a al t : string) (n : object) :
  fetchMusic data = Some M →
  lookup_track M a al t = Some n →
  existsb (directory_named a) more = false →
  fetchMusic (data ++ more) = Some M' →
  lookup_track M' a al t = Some n.
Proof.
  intros HM Hn Hd HM'.
  destruct (fetchMusic_shape _ _ HM) as (pc & ->).
  destruct (fetchMusic_shape _ _ HM') as (pc' & ->).
  rewrite lookup_track_embed in *.
  destruct (shape_track (shape_of data) a al t) as [f|] eqn:E; [|done].
  unfold shape_of. rewrite shape_run_app.
  by rewrite (shape_track_run_Some more _ _ _ _ f).
Qed.

Lemma appended_entries_keep_tracks_witness :
  ∃ M', fetchMusic ([Examples.song "a.mp3" "X" "Y" "Z"] ++
                    [Examples.song "b.mp3" "X" "Y" "Z"; Examples.dir "__proto__";
                     Examples.song "c.mp3" "__proto__" "Y" "Z"]) = Some M' ∧
        lookup_track M' "X" "Y" "Z" = Some (new_track "Z" "a.mp3").
Proof.
  eexists. split; [reflexivity|].
  exact (appended_entries_keep_tracks
           [Examples.song "a.mp3" "X" "Y" "Z"]
           [Examples.song "b.mp3" "X" "Y" "Z"; Examples.dir "__proto__";
            Examples.song "c.mp3" "__proto__" "Y" "Z"] _ _ "X" "Y" "Z"
           (new_track "Z" "a.mp3") eq_refl eq_refl eq_refl eq_refl).
Defined.

(** X23.  Below the top level no key of a built tree is a property of
    [Object.prototype]: an album of such a name makes line 204 or 212
    throw, and a title of such a name is never written.  On the top level
    such a key is the base name of a directory entry: line 196 never
    creates it. *)
Theorem built_keys_are_plain (data : list item) (M : object) :
  fetchMusic data = Some M →
  (∀ a al n, lookup_album M a al = Some n → inherited al = false) ∧
  (∀ a al t n, lookup_track M a al t = Some n → inherited t = false) ∧
  (∀ a n, lookup_artist M a = Some n → inherited a = true →
     ∃ i, i ∈ data ∧ directory_named a i = true).
Proof.
  intros HM. destruct (fetchMusic_shape _ _ HM) as (pc & ->).
  assert (Hpl : plain_keys (shape_of data)).
  { apply (plain_keys_run data (∅, false)). intros a n. simpl.
    by rewrite lookup_empty. }
  split_and!.
  - intros a al n. rewrite lookup_album_embed.
    destruct (shape_of data !! a) as [n1|] eqn:E1; simpl; [|done].
    destruct (albums n1 !! al) as [A|] eqn:E2; simpl; [|done].
    intros _. by apply (Hpl a n1 E1 al A E2).
  - intros a al t n. rewrite lookup_track_embed. unfold shape_track.
    destruct (shape_of data !! a) as [n1|] eqn:E1; simpl; [|done].
    destruct (albums n1 !! al) as [A|] eqn:E2; simpl; [|done].
    destruct (A !! t) as [f|] eqn:E3; simpl; [|done].
    intros _. by apply (Hpl a n1 E1 al A E2) in E3.
  - intros a n Hn Ha. rewrite lookup_artist_embed in Hn.
    assert (Hk : is_Some (shape_of data !! a))
      by (by destruct (shape_of data !! a)).
    destruct (shape_run_inherited_key _ _ _ Ha Hk) as [H0|?]; [|done].
    simpl in H0. rewrite lookup_empty in H0. by destruct H0.
Qed.

Lemma built_keys_are_plain_witness :
  ∃ M, fetchMusic [Examples.dir "constructor";
                   Examples.song "a.mp3" "constructor" "Y" "toString"] = Some M ∧
       is_Some (lookup_artist M "constructor") ∧
       ∀ a n, lookup_artist M a = Some n → inherited a = true →
         ∃ i, i ∈ [Examples.dir "constructor";
                   Examples.song "a.mp3" "constructor" "Y" "toString"] ∧
              directory_named a i = true.
Proof.
  eexists. split; [reflexivity|]. split; [by eexists|].
  exact (proj2 (proj2 (built_keys_are_plain
                         [Examples.dir "constructor";
                          Examples.song "a.mp3" "constructor" "Y" "toString"]
                         _ eq_refl))).
Defined.

(** ** When the callback throws *)

Section Failing.

Implicit Types (m : tree_shape).

Lemma directory_named_track (i : item) (k : string) (f : string) (md : Metadata) :
  track_of i = Some (f, md) → directory_named k i = false.
Proof. intros Hi. unfold directory_named, directory_entry. by rewrite Hi. Qed.

Lemma shape_throws_after (l0 : list item) m (i : item) :
  directory_keys l0 m → plain_keys m →
  shape_throws m i = throws_after l0 i.
Proof.
  intros Hk Hpl. unfold shape_throws, throws_after.
  destruct (track_of i) as [[f md]|] eqn:Hi; [|by rewrite orb_false_r].
  assert (nameless i = false) as ->.
  { unfold nameless, directory_entry. by rewrite Hi. }
  simpl. unfold reaches_own, own_resolves. simpl. rewrite andb_true_r.
  set (a := resolved_artist md). set (al := resolved_album md).
  assert (Hal : inherited al = true →
                albums (default fresh_artist (m !! a)) !! al = None).
  { intros Hh. destruct (m !! a) as [n|] eqn:E; simpl; [|done].
    destruct (albums n !! al) as [A|] eqn:E'; [|done].
    destruct (Hpl a n E al A E') as [Hf _]. by rewrite Hh in Hf. }
  destruct (inherited al) eqn:Hial; simpl.
  - rewrite Hal by done.
    rewrite (bool_decide_eq_false_2 (is_Some None)) by (by intros [? ?]).
    by rewrite andb_false_r.
  - rewrite orb_true_r, andb_true_r.
    destruct (inherited a) eqn:Hia; simpl.
    + rewrite orb_false_r. f_equal. apply eq_true_iff_eq.
      rewrite bool_decide_eq_true. by apply Hk.
    + by rewrite orb_true_r.
Qed.

Lemma directory_keys_visit (l0 : list item) m (i : item) :
  directory_keys l0 m →
  shape_throws m i = false →
  directory_named "__proto__" i = false →
  directory_keys (l0 ++ [i]) (shape_visit (m, false) i).1.
Proof.
  intros Hk Ht Hd k Hik.
  rewrite existsb_app. simpl. rewrite orb_false_r, orb_true_iff, <-(Hk k Hik).
  unfold shape_visit, shape_throws in *.
  destruct (track_of i) as [[f md]|] eqn:Hi.
  - rewrite (directory_named_track i k f md Hi).
    apply negb_false_iff in Ht. cbn [fst snd]. rewrite Ht. simpl.
    unfold track_step.
    rewrite lookup_insert_is_Some.
    split; [|intros [?|?]; [|done]].
    + intros [<-|[_ ?]]; [|by left]. left.
      unfold reaches_own, own_resolves in Ht. rewrite Hik in Ht. simpl in Ht.
      rewrite orb_false_r in Ht. apply andb_true_iff in Ht as [Ht _].
      by apply bool_decide_eq_true in Ht.
    + destruct (decide (resolved_artist md = k)); eauto.
  - unfold nameless in Ht. unfold directory_named, directory_entry in *.
    rewrite Hi in *.
    destruct (is_directory i); simpl in *;
      [|split; [by left|by intros [?|?]]].
    destruct (name i) as [n|]; simpl in *; [|done].
    apply bool_decide_eq_false in Hd.
    destruct (String.eqb_spec (Path.basename n) "__proto__"); [done|]. simpl.
    unfold directory_step. rewrite lookup_insert_is_Some, bool_decide_eq_true.
    destruct (decide (Path.basename n = k)) as [E|E].
    + split; [by right|by left].
    + split; [intros [?|[_ ?]]; [done|by left]|intros [?|?]; [by right|done]].
Qed.

Lemma shape_forEach_throws (l : list item) : ∀ (l0 : list item) m,
  directory_keys l0 m → plain_keys m →
  existsb (directory_named "__proto__") l = false →
  shape_forEach l m = None ↔
  ∃ l1 i l2, l = (l1 ++ i :: l2)%list ∧ throws_after (l0 ++ l1) i = true.
Proof.
  induction l as [|i l IH]; intros l0 m Hk Hpl Hd; simpl.
  - split; [done|]. intros (l1 & i & l2 & E & _). by destruct l1.
  - simpl in Hd. apply orb_false_iff in Hd as [Hd1 Hd2].
    rewrite (shape_throws_after l0) by done.
    destruct (throws_after l0 i) eqn:Ht.
    + split; [|done]. intros _. exists [], i, l. by rewrite app_nil_r.
    + rewrite <-(shape_throws_after l0 m) in Ht by done.
      rewrite (IH (l0 ++ [i])%list); [| by apply directory_keys_visit
                                      | by apply (plain_keys_visit (m, false))
                                      | done].
      rewrite (shape_throws_after l0 m) in Ht by done.
      split.
      * intros (l1 & j & l2 & -> & Hj). exists (i :: l1), j, l2.
        split; [done|]. by rewrite cons_middle, app_assoc.
      * intros (l1 & j & l2 & E & Hj). destruct l1 as [|i' l1].
        { simpl in E. injection E as <- <-. rewrite app_nil_r in Hj. congruence. }
        simpl in E. injection E as <- ->. exists l1, j, l2.
        split; [done|]. by rewrite <-app_assoc.
Qed.

End Failing.

(** X3.  As long as no directory entry is called [__proto__], [fetchMusic]
    fails exactly when the callback throws at some entry: a directory
    entry without a name, a track entry whose album is a property of
    [Object.prototype], or a track entry whose artist is one while no
    earlier directory entry has that base name. *)
Theorem fetchMusic_fails_iff (data : list item) :
  existsb (directory_named "__proto__") data = false →
  fetchMusic data = None ↔
  ∃ l1 i l2, data = (l1 ++ i :: l2)%list ∧ throws_after l1 i = true.
Proof.
  intros Hd. rewrite fetchMusic_exact by done.
  rewrite fmap_None.
  apply (shape_forEach_throws data [] ∅); [| |done].
  - intros k Hk. rewrite lookup_empty. simpl. split; [by intros [? ?]|done].
  - intros a n. by rewrite lookup_empty.
Qed.

Lemma fetchMusic_fails_iff_witness :
  fetchMusic [Examples.dir "constructor"; Examples.song "a.mp3" "constructor" "Y" "Z";
              Examples.song "b.mp3" "toString" "Y" "Z"] = None.
Proof.
  apply (proj2 (fetchMusic_fails_iff
                  [Examples.dir "constructor";
                   Examples.song "a.mp3" "constructor" "Y" "Z";
                   Examples.song "b.mp3" "toString" "Y" "Z"] eq_refl)).
  exists [Examples.dir "constructor"; Examples.song "a.mp3" "constructor" "Y" "Z"],
    (Examples.song "b.mp3" "toString" "Y" "Z"), [].
  split; reflexivity.
Defined.

(** ** [path.basename] *)

Section Basename.

Lemma existsb_rev {A} (g : A → bool) (l : list A) :
  existsb g (rev l) = existsb g l.
Proof.
  induction l as [|x l IH]; simpl; [done|].
  rewrite existsb_app, IH. simpl. by rewrite orb_false_r, orb_comm.
Qed.

Lemma upto_sep_no_sep (cs : list ascii) :
  existsb Path.is_sep (Path.upto_sep cs) = false.
Proof.
  induction cs as [|c cs IH]; simpl; [done|].
  destruct (Path.is_sep c) eqn:E; simpl; [done|]. by rewrite E.
Qed.

Lemma upto_sep_id (cs : list ascii) :
  existsb Path.is_sep cs = false → Path.upto_sep cs = cs.
Proof.
  induction cs as [|c cs IH]; simpl; [done|].
  intros [Hc Hcs]%orb_false_iff. rewrite Hc. by rewrite IH.
Qed.

Lemma upto_sep_app (cs rest : list ascii) :
  existsb Path.is_sep cs = false →
  Path.upto_sep (cs ++ "/"%char :: rest) = cs.
Proof.
  induction cs as [|c cs IH]; simpl; [done|].
  intros [Hc Hcs]%orb_false_iff. rewrite Hc. by rewrite IH.
Qed.

Lemma skip_seps_id (cs : list ascii) :
  existsb Path.is_sep cs = false → Path.skip_seps cs = cs.
Proof.
  destruct cs as [|c cs]; simpl; [done|].
  by intros [-> _]%orb_false_iff.
Qed.

Lemma skip_seps_app (cs rest : list ascii) :
  cs ≠ [] → existsb Path.is_sep cs = false →
  Path.skip_seps (cs ++ rest) = (cs ++ rest)%list.
Proof.
  destruct cs as [|c cs]; simpl; [done|].
  by intros _ [-> _]%orb_false_iff.
Qed.

Lemma list_ascii_of_string_app (s1 s2 : string) :
  list_ascii_of_string (s1 ++ s2) =
  (list_ascii_of_string s1 ++ list_ascii_of_string s2)%list.
Proof. induction s1 as [|c s1 IH]; simpl; [done|]. by rewrite IH. Qed.

Lemma list_ascii_of_string_nil (s : string) :
  list_ascii_of_string s = [] → s = "".
Proof. by destruct s. Qed.

Lemma basename_joined (d n : string) :
  has_sep n = false → n ≠ "" → Path.basename (d ++ "/" ++ n) = n.
Proof.
  unfold has_sep, Path.basename in *. intros Hn Hne.
  rewrite list_ascii_of_string_app. simpl.
  rewrite rev_app_distr. simpl. rewrite <-app_assoc. simpl.
  rewrite skip_seps_app.
  - rewrite upto_sep_app by (by rewrite existsb_rev).
    by rewrite rev_involutive, string_of_list_ascii_of_string.
  - intros E. apply Hne, list_ascii_of_string_nil.
    apply (f_equal (@rev ascii)) in E. by rewrite rev_involutive in E.
  - by rewrite existsb_rev.
Qed.

End Basename.

(** X8.  The base name of a path holds no separator; taking the base name
    again changes nothing; and a separator at the end of the path is
    ignored. *)
Theorem basename_is_a_name (p : string) :
  has_sep (Path.basename p) = false ∧
  Path.basename (Path.basename p) = Path.basename p ∧
  Path.basename (p ++ "/") = Path.basename p.
Proof.
  unfold has_sep, Path.basename. split_and!.
  - rewrite list_ascii_of_string_of_list_ascii, existsb_rev.
    apply upto_sep_no_sep.
  - rewrite list_ascii_of_string_of_list_ascii, rev_involutive.
    rewrite skip_seps_id by apply upto_sep_no_sep.
    by rewrite upto_sep_id by apply upto_sep_no_sep.
  - by rewrite list_ascii_of_string_app, rev_app_distr.
Qed.

(** X9.  For a path made of a directory, a separator and a name, where the
    name is not empty and holds no separator, the base name is the name,
    and the tree built from a track entry with that file and no title
    holds the track under that name, when neither the name nor the artist
    nor the album of the entry is a property of [Object.prototype]; a path
    that holds no separator is its own base name. *)
Theorem basename_of_joined_path (d n : string) :
  has_sep n = false →
  (n ≠ "" →
   Path.basename (d ++ "/" ++ n) = n ∧
   ∀ i md, track_of i = Some (d ++ "/" ++ n, md) →
     Js.truthy (title md) = false →
     inherited (resolved_artist md) = false →
     inherited (resolved_album md) = false →
     inherited n = false →
     resolved_title (d ++ "/" ++ n) md = n ∧
     ∃ M, fetchMusic [i] = Some M ∧
          lookup_track M (resolved_artist md) (resolved_album md) n =
            Some (new_track n (d ++ "/" ++ n)) ∧
          path_labels M (resolved_artist md) (resolved_album md) n =
            Some (resolved_artist md, resolved_album md, n)) ∧
  Path.basename n = n.
Proof.
  intros Hn. split.
  - intros Hne. split; [by apply basename_joined|].
    intros i md Hi Hmd Ha Hal Hin.
    assert (Ht : resolved_title (d ++ "/" ++ n) md = n).
    { unfold resolved_title, Js.or_else. rewrite basename_joined by done.
      destruct (title md) as [s0|]; [|done]. simpl in Hmd.
      by destruct (String.eqb s0 ""). }
    split; [done|].
    exists (musicdata (embed_tree None (track_step (d ++ "/" ++ n) md ∅))).
    split; [by apply fetchMusic_one_track|].
    assert (Hk : shape_track (track_step (d ++ "/" ++ n) md ∅)
                   (resolved_artist md) (resolved_album md) n
                 = Some (d ++ "/" ++ n)).
    { rewrite shape_track_track_step, shape_track_empty, Ht.
      by rewrite decide_True, Hin. }
    split.
    + by rewrite lookup_track_embed, Hk.
    + by rewrite path_labels_embed, Hk.
  - unfold has_sep, Path.basename in *.
    rewrite skip_seps_id by (by rewrite existsb_rev).
    rewrite upto_sep_id by (by rewrite existsb_rev).
    by rewrite rev_involutive, string_of_list_ascii_of_string.
Qed.

Lemma basename_of_joined_path_witness :
  has_sep "set one.flac" = false ∧
  ∃ M, fetchMusic [Item (Some "/music/live/set one.flac")
                     (Some (mkMetadata (Some "X") (Some "Y") None None))
                     None None] = Some M ∧
       lookup_track M "X" "Y" "set one.flac" =
         Some (new_track "set one.flac" "/music/live/set one.flac").
Proof.
  split; [reflexivity|].
  destruct (proj2 (proj2 (proj1 (basename_of_joined_path "/music/live" "set one.flac"
                                   eq_refl) ltac:(discriminate))
                     (Item (Some "/music/live/set one.flac")
                        (Some (mkMetadata (Some "X") (Some "Y") None None))
                        None None)
                     (mkMetadata (Some "X") (Some "Y") None None)
                     eq_refl eq_refl eq_refl eq_refl eq_refl))
    as (M & HM & Hk & _).
  exists M. split; [exact HM|exact Hk].
Defined.

(** ** The playback handlers, state by state *)

Section PlaybackSteps.

Lemma world_ok_boot : world_ok boot.
Proof.
  unfold world_ok; simpl. split_and!; try done.
  - intros t Ht. by apply not_elem_of_nil in Ht.
  - constructor.
Qed.

Lemma world_ok_clearInterval (h : option nat) (w : world) :
  world_ok w → world_ok (clearInterval h w).
Proof.
  intros (Hc & Hb & Hi & Hn & He & Hp). destruct h as [t0|]; [|done].
  unfold world_ok; simpl. split_and!; try done.
  - intros t [_ Ht]%list_elem_of_filter. by apply Hi.
  - by apply NoDup_filter.
Qed.

Lemma world_ok_step (w : world) (e : event) :
  world_ok w → world_ok (step w e).
Proof.
  intros Hw. pose proof Hw as (Hc & Hb & Hi & Hn & He & Hp).
  destruct e as [songPath [|] pr|child|child code|t|]; unfold step.
  - rewrite play_spawned. unfold world_ok; simpl. split_and!; try done.
    + intros p [= <-]. rewrite length_app. simpl. lia.
    + by intros t [= <-].
    + intros t [->|Ht%Hi]%elem_of_cons; lia.
    + constructor; [|done]. intros Ht%Hi. lia.
  - by rewrite play_thrown.
  - unfold on_error. by destruct (spawned (env w) !! child).
  - unfold on_exit. destruct (spawned (env w) !! child); [|done].
    apply world_ok_clearInterval. by case_bool_decide.
  - unfold tick. case_bool_decide; [|done].
    unfold on_interval.
    destruct (isPlaying (vars w) && Binary64.positive (songDuration (vars w)))
      eqn:E; [|done].
    apply andb_true_iff in E as [Hplay _].
    assert (Hw1 : world_ok
              (setPercent
                 (Binary64.percent (elapsedTime (vars w) + 1) (songDuration (vars w)))
                 (set_elapsedTime (elapsedTime (vars w) + 1) w))).
    { unfold world_ok; simpl. split_and!; try done. lia. }
    simpl. destruct (Binary64.reached _ _); [|done].
    by apply world_ok_clearInterval.
  - unfold togglePlayPause. destruct (currentAudio (vars w)) as [p|] eqn:Ec.
    + destruct (isPlaying (vars w)); unfold world_ok; simpl;
        rewrite Ec; split_and!; eauto.
    + unfold world_ok; simpl. by rewrite Ec.
Qed.

Lemma world_ok_run (es : list event) : ∀ w : world,
  world_ok w → world_ok (run w es).
Proof.
  induction es as [|e es IH]; intros w Hw; [done|].
  apply IH. by apply world_ok_step.
Qed.

End PlaybackSteps.

(** ** Pause, resume and the key binding *)

(** X10.  With a child in [currentAudio], [togglePlayPause] flips
    [isPlaying], sends [SIGSTOP] to that child when it was playing and
    [SIGCONT] when it was not, shows "Paused" or "Playing..." and leaves
    the elapsed time, the duration, the timers and the gauge alone; a
    second call brings the five variables back. *)
Theorem toggle_with_audio (w : world) (p : nat) :
  currentAudio (vars w) = Some p →
  isPlaying (vars (togglePlayPause w)) = negb (isPlaying (vars w)) ∧
  signals (env (togglePlayPause w)) =
    (p, if isPlaying (vars w) then SIGSTOP else SIGCONT) :: signals (env w) ∧
  recordbox (env (togglePlayPause w)) =
    (if isPlaying (vars w) then "Paused" else "Playing...") :: recordbox (env w) ∧
  elapsedTime (vars (togglePlayPause w)) = elapsedTime (vars w) ∧
  songDuration (vars (togglePlayPause w)) = songDuration (vars w) ∧
  intervals (env (togglePlayPause w)) = intervals (env w) ∧
  progressBar (env (togglePlayPause w)) = progressBar (env w) ∧
  vars (togglePlayPause (togglePlayPause w)) = vars w.
Proof.
  intros Hc. unfold togglePlayPause. rewrite Hc.
  destruct w as [[c pl b d e] h]. simpl in *. subst c.
  by destruct pl.
Qed.

Lemma toggle_with_audio_witness :
  currentAudio (vars (run boot (take 1 Traces.two_plays))) = Some 0%nat ∧
  signals (env (togglePlayPause (run boot (take 1 Traces.two_plays)))) =
    [(0%nat, SIGSTOP)].
Proof.
  split; [reflexivity|].
  exact (proj1 (proj2 (toggle_with_audio (run boot (take 1 Traces.two_plays))
                         0%nat eq_refl))).
Defined.

(** X11.  One press of [p] runs the listener twice, so it toggles twice:
    the five variables are what they were, the child gets both signals one
    after the other, and the record box ends on the text for the state
    before the press (also when there is no child, where
    "No audio playing" is overwritten). *)
Theorem key_p_toggles_twice (w : world) :
  vars (on_key_p w) = vars w ∧
  hd_error (recordbox (env (on_key_p w))) =
    Some (if isPlaying (vars w) then "Playing..." else "Paused") ∧
  (∀ p, currentAudio (vars w) = Some p →
        signals (env (on_key_p w)) =
          (p, if isPlaying (vars w) then SIGCONT else SIGSTOP)
            :: (p, if isPlaying (vars w) then SIGSTOP else SIGCONT)
            :: signals (env w)) ∧
  (currentAudio (vars w) = None →
   signals (env (on_key_p w)) = signals (env w) ∧
   recordbox (env (on_key_p w)) =
     [if isPlaying (vars w) then "Playing..." else "Paused"; "No audio playing";
      if isPlaying (vars w) then "Playing..." else "Paused"; "No audio playing"]
       ++ recordbox (env w))%list.
Proof.
  unfold on_key_p, key_p_listener, togglePlayPause.
  destruct w as [[[p|] pl b d e] h]; simpl.
  - destruct pl; simpl; split_and!; try done; by intros ? [= <-].
  - by destruct pl.
Qed.

(** X12.  No handler resets [currentAudio]: once it holds a child it holds
    one after every further event, and [togglePlayPause] does not show
    "No audio playing" again. *)
Theorem handle_is_never_cleared (w : world) (es : list event) :
  is_Some (currentAudio (vars w)) →
  is_Some (currentAudio (vars (run w es))) ∧
  hd_error (recordbox (env (togglePlayPause (run w es)))) ≠
    Some "No audio playing".
Proof.
  intros Hw.
  assert (Hrun : is_Some (currentAudio (vars (run w es)))).
  { revert w Hw. induction es as [|e es IH]; intros w Hw; [done|].
    apply IH. destruct e as [songPath [|] pr|child|child code|t|]; unfold step.
    - rewrite play_spawned. simpl. eauto.
    - by rewrite play_thrown.
    - unfold on_error. by destruct (spawned (env w) !! child).
    - unfold on_exit. destruct (spawned (env w) !! child); [|done].
      rewrite vars_clearInterval. by case_bool_decide.
    - unfold tick. case_bool_decide; [|done]. unfold on_interval.
      destruct (_ && _); [|done]. simpl.
      destruct (Binary64.reached _ _); [|done]. by rewrite vars_clearInterval.
    - unfold togglePlayPause. destruct Hw as [p Hp]. rewrite Hp.
      destruct (isPlaying (vars w)); simpl; rewrite Hp; eauto. }
  split; [done|]. destruct Hrun as [p Hp].
  unfold togglePlayPause. rewrite Hp.
  by destruct (isPlaying (vars (run w es))).
Qed.

Lemma handle_is_never_cleared_witness :
  is_Some (currentAudio (vars (run boot (take 1 Traces.clean_exit)))) ∧
  is_Some (currentAudio (vars (run (run boot (take 1 Traces.clean_exit))
                                 [Exit 0 (Some 0%Z); Toggle; Tick 0]))).
Proof.
  assert (H : is_Some (currentAudio (vars (run boot (take 1 Traces.clean_exit)))))
    by (by exists 0%nat).
  split; [exact H|].
  exact (proj1 (handle_is_never_cleared _ [Exit 0 (Some 0%Z); Toggle; Tick 0] H)).
Defined.

(** X17.  Pausing, any number of timer firings, and resuming: the five
    variables, the gauge and the timers are what they were before the
    pause, and the child got [SIGSTOP] and then [SIGCONT]. *)
Theorem pause_keeps_progress (w : world) (p : nat) (ts : list nat) :
  currentAudio (vars w) = Some p →
  isPlaying (vars w) = true →
  vars (run w (Toggle :: (Tick <$> ts) ++ [Toggle])) = vars w ∧
  progressBar (env (run w (Toggle :: (Tick <$> ts) ++ [Toggle]))) =
    progressBar (env w) ∧
  intervals (env (run w (Toggle :: (Tick <$> ts) ++ [Toggle]))) =
    intervals (env w) ∧
  signals (env (run w (Toggle :: (Tick <$> ts) ++ [Toggle]))) =
    (p, SIGCONT) :: (p, SIGSTOP) :: signals (env w).
Proof.
  intros Hc Hp.
  change (run w (Toggle :: (Tick <$> ts) ++ [Toggle]))
    with (run (togglePlayPause w) ((Tick <$> ts) ++ [Toggle])).
  rewrite run_app, run_ticks_idle.
  - unfold run; simpl. unfold togglePlayPause. rewrite Hc, Hp. simpl.
    rewrite Hc. destruct w as [[c pl b d e] h]. simpl in *. by subst.
  - left. unfold togglePlayPause. by rewrite Hc, Hp.
Qed.

Lemma pause_keeps_progress_witness :
  currentAudio (vars (run boot (take 3 Traces.fifty_of_200))) = Some 0%nat ∧
  elapsedTime (vars (run (run boot (take 3 Traces.fifty_of_200))
                       (Toggle :: (Tick <$> [0%nat; 0%nat; 0%nat]) ++ [Toggle])))
  = 2%Z.
Proof.
  split; [reflexivity|].
  exact (f_equal elapsedTime
           (proj1 (pause_keeps_progress (run boot (take 3 Traces.fifty_of_200))
                     0%nat [0%nat; 0%nat; 0%nat] eq_refl eq_refl))).
Defined.

(** ** States the program can reach *)

(** X13.  In every state reached from the start of the script:
    [currentAudio], when set, is the child spawned last;
    [progressBarInterval], when set, is the timer created last; the live
    timers are distinct timers that were created; [elapsedTime] is not
    negative; and [isPlaying] is true only with a child in
    [currentAudio]. *)
Theorem reachable_states (es : list event) :
  (∀ p, currentAudio (vars (run boot es)) = Some p →
        S p = length (spawned (env (run boot es)))) ∧
  (∀ t, progressBarInterval (vars (run boot es)) = Some t →
        S t = next_interval (env (run boot es))) ∧
  (∀ t, t ∈ intervals (env (run boot es)) →
        t < next_interval (env (run boot es))) ∧
  NoDup (intervals (env (run boot es))) ∧
  (0 ≤ elapsedTime (vars (run boot es)))%Z ∧
  (isPlaying (vars (run boot es)) = true →
   is_Some (currentAudio (vars (run boot es)))).
Proof. apply (world_ok_run es boot), world_ok_boot. Qed.

Section StaleTimers.

(** A live timer that is not the one in [progressBarInterval] survives
    every event, and never becomes the one in [progressBarInterval]. *)
Lemma stale_timer_step (w : world) (e : event) (t : nat) :
  world_ok w →
  t ∈ intervals (env w) →
  progressBarInterval (vars w) ≠ Some t →
  t ∈ intervals (env (step w e)) ∧
  progressBarInterval (vars (step w e)) ≠ Some t.
Proof.
  intros (_ & _ & Hi & _) Ht Hb.
  destruct e as [songPath [|] pr|child|child code|t'|]; unfold step.
  - rewrite play_spawned. simpl. split; [by apply list_elem_of_further|].
    intros [= E]. apply Hi in Ht. lia.
  - by rewrite play_thrown.
  - unfold on_error. by destruct (spawned (env w) !! child).
  - unfold on_exit. destruct (spawned (env w) !! child); [|done].
    rewrite vars_clearInterval. split; [|by case_bool_decide].
    apply intervals_clearInterval_other; by case_bool_decide.
  - unfold tick. case_bool_decide; [|done]. unfold on_interval.
    destruct (_ && _); [|done]. simpl.
    destruct (Binary64.reached _ _); [|done].
    rewrite vars_clearInterval. split; [|done].
    by apply intervals_clearInterval_other.
  - unfold togglePlayPause. destruct (currentAudio (vars w)); [|done].
    by destruct (isPlaying (vars w)).
Qed.

End StaleTimers.

(** X14.  A live timer whose handle is no longer in [progressBarInterval]
    is never cancelled: it is alive after every further event. *)
Theorem stale_timer_is_never_cancelled (es0 es : list event) (t : nat) :
  t ∈ intervals (env (run boot es0)) →
  progressBarInterval (vars (run boot es0)) ≠ Some t →
  t ∈ intervals (env (run boot (es0 ++ es))).
Proof.
  rewrite run_app. pose proof (world_ok_run es0 boot world_ok_boot) as Hw.
  generalize dependent (run boot es0). intros w Hw Ht Hb.
  revert w Hw Ht Hb. induction es as [|e es IH]; intros w Hw Ht Hb; [done|].
  destruct (stale_timer_step w e t Hw Ht Hb) as [Ht' Hb'].
  apply (IH (step w e)); [by apply world_ok_step|done..].
Qed.

Lemma stale_timer_is_never_cancelled_witness :
  0%nat ∈ intervals (env (run boot Traces.two_plays)) ∧
  0%nat ∈ intervals (env (run boot (Traces.two_plays ++
                                      [Exit 0 None; Exit 1 (Some 0%Z); Toggle; Tick 0]))).
Proof.
  assert (H : 0%nat ∈ intervals (env (run boot Traces.two_plays)))
    by (vm_compute; apply list_elem_of_further, list_elem_of_here).
  split; [exact H|].
  refine (stale_timer_is_never_cancelled Traces.two_plays
            [Exit 0 None; Exit 1 (Some 0%Z); Toggle; Tick 0] 0%nat H _).
  vm_compute. discriminate.
Defined.

(** X18.  When a song replaces one that is still playing, the [exit] of
    the replaced child, whatever its code, marks the new song as not
    playing and cancels the timer of the new song: until the next toggle
    no firing of any timer changes anything.  [currentAudio] holds the new
    child, the old child was sent [SIGTERM], and the timers that were
    alive before stay alive. *)
Theorem exit_of_replaced_child (w : world) (p : nat) (old new : string)
    (pr : probe) (code : option Z) (ts : list nat) :
  currentAudio (vars w) = Some p →
  spawned (env w) !! p = Some old →
  isPlaying (vars (on_exit p code (playSong new Spawned pr w))) = false ∧
  currentAudio (vars (on_exit p code (playSong new Spawned pr w))) =
    Some (length (spawned (env w))) ∧
  signals (env (on_exit p code (playSong new Spawned pr w))) =
    (p, SIGTERM) :: signals (env w) ∧
  intervals (env (on_exit p code (playSong new Spawned pr w))) =
    filter (λ t, t ≠ next_interval (env w)) (intervals (env w)) ∧
  run (on_exit p code (playSong new Spawned pr w)) (Tick <$> ts) =
    on_exit p code (playSong new Spawned pr w).
Proof.
  intros Hc Hs.
  assert (E : on_exit p code (playSong new Spawned pr w) =
              clearInterval (Some (next_interval (env w)))
                (set_isPlaying false
                   (if bool_decide (code = Some 0%Z)
                    then playSong new Spawned pr w
                    else updateRecordBox ("Playback ended: " ++ Path.basename old)
                           (playSong new Spawned pr w)))).
  { unfold on_exit. rewrite play_spawned. simpl.
    rewrite (lookup_app_l_Some _ _ _ _ Hs). by case_bool_decide. }
  split_and!.
  - rewrite E, vars_clearInterval. by case_bool_decide.
  - rewrite E, vars_clearInterval, play_spawned. by case_bool_decide.
  - rewrite E, play_spawned. unfold signals_after_kill. rewrite Hc.
    by case_bool_decide.
  - rewrite E, play_spawned. simpl.
    case_bool_decide; simpl; by rewrite filter_cons_False by (intros H'; by apply H').
  - apply run_ticks_idle. left.
    rewrite E, vars_clearInterval. by case_bool_decide.
Qed.

Lemma exit_of_replaced_child_witness :
  currentAudio (vars (run boot (take 1 Traces.two_plays))) = Some 0%nat ∧
  isPlaying (vars (on_exit 0 None
                     (playSong "/music/b.mp3" Spawned (ProbeParsed 100%float)
                        (run boot (take 1 Traces.two_plays))))) = false.
Proof.
  split; [reflexivity|].
  exact (proj1 (exit_of_replaced_child (run boot (take 1 Traces.two_plays))
                  0%nat "/music/a.mp3" "/music/b.mp3" (ProbeParsed 100%float)
                  None [] eq_refl eq_refl)).
Defined.

(** ** One song from start to end *)

Section Session.

Lemma filter_ne_singleton (t0 : nat) : filter (λ t, t ≠ t0) [t0] = [].
Proof. by rewrite filter_cons_False by (intros H; by apply H). Qed.

Lemma getSongDuration_finite (d : float) (q : Q) :
  Binary64.value d = Binary64.Finite q →
  getSongDuration (ProbeParsed d) = d.
Proof. intros Hd. simpl. by rewrite (isNaN_finite d q). Qed.

Lemma in_session_clearInterval d q t0 w :
  in_session d q t0 w → in_session d q t0 (clearInterval (Some t0) w).
Proof.
  intros (Hd & Hv & Hb & Hi & He & H0 & Hp). unfold in_session; simpl.
  split_and!; try done. right.
  destruct Hi as [[-> _]| ->]; [apply filter_ne_singleton|done].
Qed.

Lemma in_session_step d q t0 w e :
  (0 < q)%Q → is_play e = false →
  in_session d q t0 w → in_session d q t0 (step w e).
Proof.
  intros Hpos He Hw. pose proof Hw as (Hd & Hv & Hb & Hi & Hlt & H0 & Hp).
  destruct e as [songPath r pr|child|child code|t|]; unfold step; [done|..].
  - unfold on_error. by destruct (spawned (env w) !! child).
  - unfold on_exit. destruct (spawned (env w) !! child); [|done].
    assert (Hb' : progressBarInterval
                    (vars (set_isPlaying false
                       (if bool_decide (code = Some 0%Z) then w
                        else updateRecordBox
                               ("Playback ended: " ++ Path.basename s) w)))
                  = Some t0) by (by case_bool_decide).
    rewrite Hb'. apply in_session_clearInterval. by case_bool_decide.
  - unfold tick. case_bool_decide as Ht; [|done].
    destruct Hi as [[Hi Hlt']|Hi]; [|rewrite Hi in Ht; by apply not_elem_of_nil in Ht].
    destruct (isPlaying (vars w)) eqn:Hplay;
      [|by rewrite on_interval_idle by (by left)].
    rewrite on_interval_playing
      by (rewrite ?Hd; try done; by apply (positive_finite d q)).
    assert (Hlt1 : (inject_Z (elapsedTime (vars w) + 1) < q + 1)%Q).
    { rewrite inject_Z_succ. by apply Qplus_lt_l. }
    assert (Hne : (elapsedTime (vars w) + 1 =? 0)%Z = false)
      by (apply Z.eqb_neq; lia).
    rewrite Hd, (reached_finite _ d q) by done.
    simpl. destruct (Qle_bool _ _) eqn:E.
    + rewrite Hb. unfold in_session; simpl. rewrite Hd, Hi, Hne.
      split_and!; try done; try lia.
      right. apply filter_ne_singleton.
    + apply Qle_bool_false in E.
      unfold in_session; simpl. rewrite Hd, Hne.
      split_and!; try done; try lia.
      left. by split.
  - unfold togglePlayPause. destruct (currentAudio (vars w)); [|done].
    by destruct (isPlaying (vars w)).
Qed.

End Session.

(** X15.  From the start of a song whose duration is a positive finite
    number, begun while no timer was alive, until the next song starts:
    the elapsed time stays below the duration plus one second, at most one
    timer is alive, and the gauge shows 0 before the first firing and
    after it the binary64 value of elapsed time over duration times 100
    as line 91 computes it. *)
Theorem song_overshoots_by_less_than_a_second (w0 : world) (songPath : string)
    (d : float) (q : Q) (es : list event) :
  intervals (env w0) = [] →
  Binary64.value d = Binary64.Finite q →
  (0 < q)%Q →
  existsb is_play es = false →
  (inject_Z (elapsedTime
     (vars (run (playSong songPath Spawned (ProbeParsed d) w0) es)))
   < q + 1)%Q ∧
  (length (intervals
     (env (run (playSong songPath Spawned (ProbeParsed d) w0) es))) ≤ 1)%nat ∧
  hd_error (progressBar
     (env (run (playSong songPath Spawned (ProbeParsed d) w0) es)))
  = Some (if (elapsedTime
                (vars (run (playSong songPath Spawned (ProbeParsed d) w0) es))
              =? 0)%Z
          then 0%float
          else Binary64.percent
                 (elapsedTime
                    (vars (run (playSong songPath Spawned (ProbeParsed d) w0) es)))
                 d).
Proof.
  intros Hi Hv Hd Hes.
  assert (Hstart : in_session d q (next_interval (env w0))
                     (playSong songPath Spawned (ProbeParsed d) w0)).
  { rewrite play_spawned, (getSongDuration_finite d q) by done.
    unfold in_session; simpl. rewrite Hi.
    split_and!; try done.
    - left. by split.
    - apply Qlt_trans with q; [done|].
      rewrite <-(Qplus_0_r q) at 1. by apply Qplus_lt_r. }
  assert (Hend : in_session d q (next_interval (env w0))
                   (run (playSong songPath Spawned (ProbeParsed d) w0) es)).
  { generalize dependent (playSong songPath Spawned (ProbeParsed d) w0).
    induction es as [|e es IH]; intros w Hw; [done|].
    simpl in Hes. apply orb_false_iff in Hes as [He Hes].
    apply (IH Hes). by apply in_session_step. }
  destruct Hend as (_ & _ & _ & Hint & Hlt & _ & Hp).
  split_and!; [done| |done].
  destruct Hint as [[-> _]| ->]; simpl; lia.
Qed.

Lemma song_overshoots_by_less_than_a_second_witness :
  hd_error (progressBar
     (env (run (playSong "/music/a.mp3" Spawned (ProbeParsed Traces.nine_point_four)
                 boot)
             (repeat (Tick 0) 12))))
  = Some 0x1.a9882b9310572p+6%float.
Proof.
  exact (proj2 (proj2 (song_overshoots_by_less_than_a_second boot "/music/a.mp3"
                         Traces.nine_point_four _ (repeat (Tick 0) 12)
                         eq_refl eq_refl eq_refl eq_refl))).
Defined.

Section Counting.

Variables (songPath : string) (d : float) (q : Q) (w0 : world).
Hypothesis Hv : Binary64.value d = Binary64.Finite q.
Hypothesis Hq : (0 < q)%Q.

Let t0 := next_interval (env w0).
Let c := Qceiling q.

(** After [k] firings of the song's timer. *)
Let counted (k : nat) (w : world) : Prop :=
  elapsedTime (vars w) = Z.min (Z.of_nat k) c ∧
  isPlaying (vars w) = true ∧
  songDuration (vars w) = d ∧
  progressBarInterval (vars w) = Some t0 ∧
  ((Z.of_nat k < c)%Z → t0 ∈ intervals (env w)) ∧
  ((c ≤ Z.of_nat k)%Z → t0 ∉ intervals (env w)).

Lemma ceiling_positive : (0 < c)%Z.
Proof. by apply Qlt_ceiling. Qed.

Lemma counted_tick (k : nat) (w : world) :
  counted k w → counted (S k) (tick t0 w).
Proof.
  intros (He & Hp & Hdur & Hb & Hin & Hout).
  pose proof ceiling_positive as Hc.
  destruct (Z_lt_le_dec (Z.of_nat k) c) as [Hk|Hk].
  - specialize (Hin Hk). unfold tick. rewrite bool_decide_eq_true_2 by done.
    rewrite on_interval_playing
      by (rewrite ?Hdur; try done; by apply (positive_finite d q)).
    rewrite Hdur, Hb, He, Z.min_l, (reached_finite _ d q) by (done || lia).
    simpl. destruct (Qle_bool _ _) eqn:E.
    + apply Qle_bool_iff in E.
      assert (c ≤ Z.of_nat k + 1)%Z.
      { destruct (Z_lt_le_dec (Z.of_nat k + 1) c) as [H|H]; [|done].
        apply Qlt_ceiling in H. by apply Qle_not_lt in E. }
      unfold counted; simpl. split_and!; try done; try lia.
      intros _. by apply (intervals_clearInterval (Some t0)).
    + apply Qle_bool_false, Qlt_ceiling in E. fold c in E.
      unfold counted; simpl. split_and!; try done; lia.
  - specialize (Hout Hk). unfold tick. rewrite bool_decide_eq_false_2 by done.
    unfold counted. split_and!; try done; lia.
Qed.

Lemma counted_run (n : nat) :
  counted n (run (playSong songPath Spawned (ProbeParsed d) w0)
               (repeat (Tick t0) n)).
Proof.
  induction n as [|n IH].
  - rewrite play_spawned, (getSongDuration_finite d q) by done.
    pose proof ceiling_positive.
    unfold counted; simpl. split_and!; try done; try lia.
    intros _. apply list_elem_of_here.
  - rewrite <-Nat.add_1_r, repeat_app, run_app.
    rewrite Nat.add_1_r. by apply counted_tick.
Qed.

End Counting.

(** X16.  After a song whose duration is a positive finite number has
    started, [n] firings of its timer bring the elapsed time to [n], but
    not beyond the duration rounded up to whole seconds: the timer stops
    itself there. *)
Theorem ticks_count_up_to_the_duration (w0 : world) (songPath : string)
    (d : float) (q : Q) (n : nat) :
  Binary64.value d = Binary64.Finite q →
  (0 < q)%Q →
  elapsedTime
    (vars (run (playSong songPath Spawned (ProbeParsed d) w0)
             (repeat (Tick (next_interval (env w0))) n)))
  = Z.min (Z.of_nat n) (Qceiling q).
Proof. intros Hv Hq. by destruct (counted_run songPath d q w0 Hv Hq n). Qed.

Lemma ticks_count_up_to_the_duration_witness :
  elapsedTime
    (vars (run (playSong "/music/a.mp3" Spawned (ProbeParsed Traces.nine_point_four)
                 boot)
             (repeat (Tick 0) 25)))
  = 10%Z.
Proof.
  exact (ticks_count_up_to_the_duration boot "/music/a.mp3" Traces.nine_point_four
           _ 25 eq_refl eq_refl).
Defined.

(** ** Selecting a node of the tree *)

Section Selecting.

Lemma view_new_track (t f : string) :
  view (new_track t f) = Some (mkNode t (Some f) None).
Proof. reflexivity. Qed.

Lemma view_embed_album (al : string) (A : gmap string string) :
  view (embed_album al A) = Some (mkNode al None (Some (size A))).
Proof.
  rewrite <-(keys_length_container new_track None A). reflexivity.
Qed.

Lemma view_embed_artist (a : string) (n : artist_shape) :
  view (embed_artist a n) = Some (mkNode a None (Some (size (albums n)))).
Proof.
  rewrite <-(keys_length_container embed_album None (albums n)).
  unfold embed_artist. by destruct (from_directory n).
Qed.

Lemma select_group (name : string) (k : nat) (r : spawn_result) (pr : probe)
    (u : ui) :
  tree_select (mkNode name None (Some k)) r pr u =
  if (0 <? k)%nat then show_group name u else isAlbumNode_throws u.
Proof. reflexivity. Qed.

End Selecting.

(** X19.  Selecting a track of a built tree starts the player on the file
    of the entry the track came from: [playSong] is called with that file,
    the record box ends on "Now playing: <title>", where the title is the
    key of the track, and the table shows the title. *)
Theorem select_track_plays_file (data : list item) (M : object)
    (a al t : string) (n : object) (r : spawn_result) (pr : probe) (u : ui) :
  fetchMusic data = Some M →
  lookup_track M a al t = Some n →
  ∃ nd f, view n = Some nd ∧ file_of n = Some f ∧
          tree_select nd r pr u =
            mkUi (updateRecordBox ("Now playing: " ++ t)
                    (playSong f r pr (player u)))
              [[t; "N/A"; "00:00"]] ∧
          ∃ i, i ∈ data ∧ file i = Some f.
Proof.
  intros HM Hn. destruct (fetchMusic_shape _ _ HM) as (pc & ->).
  rewrite lookup_track_embed in Hn.
  destruct (shape_track _ _ _ _) as [f|] eqn:E; simpl in Hn; [|done].
  injection Hn as <-.
  destruct (shape_track_run_inv _ _ _ _ _ _ E)
    as [H0|(_ & i & md & Hi & _ & Hi')].
  { by rewrite shape_track_empty in H0. }
  apply track_of_truthy in Hi' as (Hf & _ & Hne).
  exists (mkNode t (Some f) None), f. split_and!; [done..| |by exists i].
  unfold tree_select, song_row. simpl.
  by destruct (String.eqb_spec f "").
Qed.

Lemma select_track_plays_file_witness :
  ∃ nd f, view (new_track "a.mp3" "/srv/a.mp3") = Some nd ∧
          node_file nd = Some f ∧
          ∃ i, i ∈ [Examples.song "/srv/a.mp3" "X" "Y" ""] ∧ file i = Some f.
Proof.
  destruct (select_track_plays_file
              [Examples.song "/srv/a.mp3" "X" "Y" ""] _ "X" "Y" "a.mp3"
              (new_track "a.mp3" "/srv/a.mp3") Spawned ProbeThrows
              (mkUi boot []) eq_refl eq_refl)
    as (nd & f & Hv & Hf & _ & Hi).
  exists nd, f. split; [exact Hv|]. split; [|exact Hi].
  injection Hv as <-. exact Hf.
Defined.

(** X20.  In a built tree, selecting an album that has tracks shows
    "Artist: <album>" and the row "No Songs Selected"; so does selecting a
    top-level node that has albums, with its own name.  Selecting a node
    whose [children] is empty ends in the [catch] clause,
    "Error: isAlbumNode is not defined" and the row "Error": a top-level
    node is then the node of a directory entry, and an album is then one
    whose only entries have a title that is a property of
    [Object.prototype].  None of them touches the playback variables. *)
Theorem select_group_in_built_tree (data : list item) (M : object)
    (r : spawn_result) (pr : probe) (u : ui) :
  fetchMusic data = Some M →
  (∀ a al n, lookup_album M a al = Some n →
     ∃ k, view n = Some (mkNode al None (Some k)) ∧
          (k ≠ 0 →
           tree_select (mkNode al None (Some k)) r pr u = show_group al u) ∧
          (k = 0 →
           tree_select (mkNode al None (Some k)) r pr u = isAlbumNode_throws u ∧
           ∃ i f md, i ∈ data ∧ track_of i = Some (f, md) ∧
                     resolved_artist md = a ∧ resolved_album md = al ∧
                     inherited (resolved_title f md) = true)) ∧
  (∀ a n, lookup_artist M a = Some n →
     ∃ k, view n = Some (mkNode a None (Some k)) ∧
          (k ≠ 0 →
           tree_select (mkNode a None (Some k)) r pr u = show_group a u) ∧
          (k = 0 →
           n = new_directory a ∧
           tree_select (mkNode a None (Some k)) r pr u = isAlbumNode_throws u)) ∧
  (∀ name, vars (player (show_group name u)) = vars (player u)) ∧
  vars (player (isAlbumNode_throws u)) = vars (player u).
Proof.
  intros HM. destruct (fetchMusic_shape _ _ HM) as (pc & ->).
  pose proof (populated_shape_of data) as Hpop.
  assert (Hpos : ∀ k, k ≠ 0 → (0 <? k)%nat = true).
  { intros k Hk. apply Nat.ltb_lt. lia. }
  split_and!; [| |done|done].
  - intros a al n. rewrite lookup_album_embed.
    destruct (shape_of data !! a) as [n1|] eqn:E1; simpl; [|done].
    destruct (albums n1 !! al) as [A|] eqn:E2; simpl; [|done].
    intros [= <-]. exists (size A). rewrite view_embed_album, select_group.
    split_and!; [done| |].
    + intros Hk. by rewrite Hpos.
    + intros Hk. rewrite Hk. split; [done|].
      apply map_size_empty_iff in Hk.
      destruct (Hpop a n1 E1) as [_ H2]. by apply (H2 al A E2).
  - intros a n. rewrite lookup_artist_embed.
    destruct (shape_of data !! a) as [n1|] eqn:E1; simpl; [|done].
    intros [= <-]. exists (size (albums n1)).
    rewrite view_embed_artist, select_group.
    split_and!; [done| |].
    + intros Hk. by rewrite Hpos.
    + intros Hk. rewrite Hk. split; [|done].
      apply map_size_empty_iff in Hk.
      destruct (Hpop a n1 E1) as [H1 _]. rewrite (H1 Hk).
      symmetry. apply new_directory_embed.
Qed.

Lemma select_group_in_built_tree_witness :
  ∃ M n, fetchMusic [Examples.song "a.mp3" "X" "Y" "Z"; Examples.dir "Live"] = Some M ∧
         lookup_artist M "Live" = Some n ∧
         ∃ k, view n = Some (mkNode "Live" None (Some k)) ∧
              (k = 0 →
               n = new_directory "Live" ∧
               tree_select (mkNode "Live" None (Some k)) Spawned ProbeThrows
                 (mkUi boot []) = isAlbumNode_throws (mkUi boot [])).
Proof.
  eexists _, _. split; [reflexivity|]. split; [reflexivity|].
  destruct (proj1 (proj2 (select_group_in_built_tree
                            [Examples.song "a.mp3" "X" "Y" "Z"; Examples.dir "Live"] _
                            Spawned ProbeThrows (mkUi boot []) eq_refl))
              "Live" _ eq_refl) as (k & Hv & _ & H0).
  exists k. split; [exact Hv|exact H0].
Defined.

(** ** The address of a song *)

Section Address.

Lemma unescape_encode_byte (c : ascii) (rest : list ascii) :
  Uri.unescape (Uri.encode_byte c ++ rest) = c :: Uri.unescape rest.
Proof.
  destruct c as [[|] [|] [|] [|] [|] [|] [|] [|]]; reflexivity.
Qed.

Lemma unescape_encode (cs : list ascii) :
  Uri.unescape (flat_map Uri.encode_byte cs) = cs.
Proof.
  induction cs as [|c cs IH]; simpl; [done|].
  by rewrite unescape_encode_byte, IH.
Qed.

Lemma encodeURIComponent_inj (s1 s2 : string) :
  Uri.encodeURIComponent s1 = Uri.encodeURIComponent s2 → s1 = s2.
Proof.
  unfold Uri.encodeURIComponent. intros E.
  apply (f_equal list_ascii_of_string) in E.
  rewrite !list_ascii_of_string_of_list_ascii in E.
  apply (f_equal Uri.unescape) in E. rewrite !unescape_encode in E.
  apply (f_equal string_of_list_ascii) in E.
  by rewrite !string_of_list_ascii_of_string in E.
Qed.

Lemma encode_byte_safe (c : ascii) :
  forallb (λ x, Uri.unreserved x || Ascii.eqb x "%"%char) (Uri.encode_byte c) = true.
Proof.
  destruct c as [[|] [|] [|] [|] [|] [|] [|] [|]]; reflexivity.
Qed.

End Address.

(** X21.  Two paths get the same address exactly when they have the same
    base name: the directories of a path play no part, and different file
    names never share an address. *)
Theorem song_url_by_basename (p q : string) :
  song_url p = song_url q ↔ Path.basename p = Path.basename q.
Proof.
  unfold song_url, SERVER_URL. split; [|by intros ->].
  intros E. simpl in E. injection E as E. by apply encodeURIComponent_inj.
Qed.

(** X22.  The last part of the address is made of letters, digits, the
    marks [- _ . ! ~ * ' ( )] and [%] only: whatever the file is called,
    the address has no further separator, query or fragment. *)
Theorem song_url_is_one_segment (songPath : string) :
  song_url songPath =
    "http://localhost:3000/songs/" ++
    Uri.encodeURIComponent (Path.basename songPath) ∧
  forallb (λ x, Uri.unreserved x || Ascii.eqb x "%"%char)
    (list_ascii_of_string (Uri.encodeURIComponent (Path.basename songPath))) = true ∧
  has_sep (Uri.encodeURIComponent (Path.basename songPath)) = false.
Proof.
  assert (Hsafe : ∀ cs,
            forallb (λ x, Uri.unreserved x || Ascii.eqb x "%"%char)
              (flat_map Uri.encode_byte cs) = true).
  { induction cs as [|c cs IH]; simpl; [done|].
    by rewrite forallb_app, encode_byte_safe, IH. }
  unfold Uri.encodeURIComponent, has_sep.
  rewrite list_ascii_of_string_of_list_ascii.
  split_and!; [done|apply Hsafe|].
  generalize (Hsafe (list_ascii_of_string (Path.basename songPath))).
  generalize (flat_map Uri.encode_byte (list_ascii_of_string (Path.basename songPath))).
  induction l as [|c l IH]; simpl; [done|].
  intros [Hc Hl]%andb_true_iff. rewrite (IH Hl), orb_false_r.
  unfold Path.is_sep. destruct (Ascii.eqb_spec c "/"%char) as [->|]; [|done].
  done.
Qed.
